(** * Instrumented string matching: naive scan and Rabin-Karp

    A shallow embedding of [daa_miniproject.py]: the input validator
    [validate_inputs] and the two instrumented matchers
    [naive_string_matching_instrumented] and [rabin_karp_instrumented],
    followed by the properties their traces satisfy.

    Conventions of the embedding.
    - A Python [str] is the list of its code points; [ord] is the code
      point of a character, Python's [!=] on characters is inequality of
      code points.
    - Python integers are unbounded: they are [Z].  [%] is floored, as
      [Z.modulo], and raises [ZeroDivisionError] on a zero divisor.
    - Exceptions are explicit: a computation yields [Ok v] or [Raise e].
    - [time.perf_counter_ns] is an oracle: the [k]-th call of a run reads
      [clock k]; a run threads the number of calls made so far.
    - [sys.getsizeof] depends on the interpreter: it is a parameter.
    - ["iteration_time_s"] is [(end - start)/1e9] as a float; the record
      keeps the integer difference in nanoseconds.
    - The formatted strings of ["details"] are kept as structured values,
      one constructor per format string. *)

From Stdlib Require Import String Ascii.
From Stdlib Require Import ZArith List Sorted Lia Bool.
Import ListNotations.
Open Scope Z_scope.

(** ** Strings, exceptions *)

(** A character is its code point, a string the list of its characters. *)
Abbreviation char := Z (only parsing).
Abbreviation str := (list Z) (only parsing).

Definition ord (c : char) : Z := c.

Definition len (s : str) : Z := Z.of_nat (length s).

Definition str_of_string (s : string) : str :=
  map (fun a => Z.of_N (N_of_ascii a)) (list_ascii_of_string s).

Inductive exn :=
| IndexError
| ZeroDivisionError
| ValueError (msg : string).

Inductive result (A : Type) :=
| Ok (a : A)
| Raise (e : exn).
Arguments Ok {A} a.
Arguments Raise {A} e.

Definition rbind {A B} (r : result A) (f : A -> result B) : result B :=
  match r with
  | Ok a => f a
  | Raise e => Raise e
  end.

Declare Scope result_scope.
Delimit Scope result_scope with res.
Notation "x <- r ; f" := (rbind r (fun x => f))
  (at level 61, r at next level, right associativity) : result_scope.
Notation "' pat <- r ; f" := (rbind r (fun x => match x with pat => f end))
  (at level 61, pat pattern, r at next level, right associativity) : result_scope.

(** [s[i]]: negative indices count from the end, anything outside
    [-len(s) <= i < len(s)] raises [IndexError]. *)
Definition getitem (s : str) (i : Z) : result char :=
  let i' := if i <? 0 then i + len s else i in
  if (0 <=? i') && (i' <? len s) then
    match nth_error s (Z.to_nat i') with
    | Some c => Ok c
    | None => Raise IndexError
    end
  else Raise IndexError.

(** [range(k)]: [0, 1, ..., k-1], empty when [k <= 0]. *)
Definition range (k : Z) : list Z := map Z.of_nat (seq 0 (Z.to_nat k)).

(** [a % q]. *)
Definition py_mod (a q : Z) : result Z :=
  if q =? 0 then Raise ZeroDivisionError else Ok (a mod q).

(** ** The builtin [pow(base, exp, mod)] *)

(** Square and multiply along the binary digits of the exponent, every
    intermediate product reduced modulo [q]. *)
Fixpoint pow_pos_mod (b : Z) (e : positive) (q : Z) : Z :=
  match e with
  | xH => b mod q
  | xO e' => let r := pow_pos_mod b e' q in (r * r) mod q
  | xI e' => let r := pow_pos_mod b e' q in (((r * r) mod q) * b) mod q
  end.

Definition pow_nonneg_mod (b e q : Z) : Z :=
  match e with
  | Zpos p => pow_pos_mod b p q
  | _ => 1 mod q
  end.

(** Three-argument [pow].  A zero modulus raises [ValueError].  For a
    negative exponent the base is replaced by its inverse modulo [|q|]
    (the least non-negative one) and the exponent negated; [ValueError]
    when there is no inverse. *)
Definition pow (b e q : Z) : result Z :=
  if q =? 0 then Raise (ValueError "pow() 3rd argument cannot be 0")
  else if 0 <=? e then Ok (pow_nonneg_mod b e q)
  else
    match find (fun x => (b * x) mod Z.abs q =? 1 mod Z.abs q) (range (Z.abs q)) with
    | Some inv => Ok (pow_nonneg_mod inv (- e) q)
    | None => Raise (ValueError "base is not invertible for the given modulus")
    end.

(** ** Step records *)

(** One constructor per format string appended to ["details"]:
    - [CharEq ti tc pj pc]:  [t[ti]='tc' == p[pj]='pc']
    - [CharNeq ti tc pj pc stop]:  [t[ti]='tc' != p[pj]='pc'], followed by
      [ (stop)] in the naive matcher ([stop = true])
    - [HashMismatch p t]:  [Hash mismatch: p vs t]
    - [InitialHashes p t h]:  [initial p_hash=p, t_hash=t, h=h]
    - [Rolled t]:  [rolled t_hash -> t] *)
Inductive detail :=
| CharEq (ti : Z) (tc : char) (pj : Z) (pc : char)
| CharNeq (ti : Z) (tc : char) (pj : Z) (pc : char) (stop : bool)
| HashMismatch (p t : Z)
| InitialHashes (p t h : Z)
| Rolled (t : Z).

Module Naive.
Record step := mk {
  index : Z;
  matched : bool;
  comparisons : Z;
  iteration_time_ns : Z;
  memory_bytes : Z;
  details : list detail
}.

Definition view (s : step) : Z * bool * Z :=
  (index s, matched s, comparisons s).
End Naive.

Module RK.
Inductive phase_tag := init_hash | check | rolling_hash.

(** ["index"] is [-1] for the initial step, [i] for a check and the
    float [i + 0.5] for the roll that follows it. *)
Inductive position :=
| Int (i : Z)
| PlusHalf (i : Z).

Record step := mk {
  index : position;
  phase : phase_tag;
  p_hash : Z;
  t_hash : Z;
  matched : bool;
  comparisons : Z;
  iteration_time_ns : Z;
  memory_bytes : Z;
  details : list detail
}.

(** What a step says about the algorithm: everything but the timing,
    the memory estimate and the display lines. *)
Definition view (s : step) : position * phase_tag * Z * Z * bool * Z :=
  (index s, phase s, p_hash s, t_hash s, matched s, comparisons s).
End RK.

(** ** Validation *)

Definition MAX_TEXT_LEN : Z := 20000.

Definition validate_inputs (text pattern : str) : result (str * str) :=
  if (len text =? 0) || (len pattern =? 0) then
    Raise (ValueError "Text and Pattern cannot be empty.")
  else if len pattern >? len text then
    Raise (ValueError "Pattern cannot be longer than text.")
  else if len text >? 20000 then
    Raise (ValueError "Text too large for interactive demo (max 20,000 chars).")
  else Ok (text, pattern).

(** ** The character comparison loop

    [for j in js: comparisons += 1; if text[i+j] != pattern[j]: ...; break
     else: ...], started with the given counter and detail list.  Returns
    the counter, whether the loop ran to its end without a mismatch, and
    the details.  Both matchers contain this loop; they differ in the
    [ (stop)] suffix of the mismatch line only. *)
Fixpoint compare_chars (text pattern : str) (i : Z) (stop : bool) (js : list Z)
    (comparisons : Z) (details : list detail) : result (Z * bool * list detail) :=
  match js with
  | [] => Ok (comparisons, true, details)
  | j :: js' =>
      let comparisons := comparisons + 1 in
      (tc <- getitem text (i + j);
       pc <- getitem pattern j;
       if negb (tc =? pc) then
         Ok (comparisons, false, details ++ [CharNeq (i + j) tc j pc stop])
       else
         compare_chars text pattern i stop js' comparisons
           (details ++ [CharEq (i + j) tc j pc]))%res
  end.

(** The loop that hashes the pattern and the first window:
    [p_hash = (d*p_hash + ord(pattern[i])) % q] and then
    [t_hash = (d*t_hash + ord(text[i])) % q], for [i] in [ixs]. *)
Fixpoint init_hashes (text pattern : str) (d q : Z) (ixs : list Z)
    (p_hash t_hash : Z) : result (Z * Z) :=
  match ixs with
  | [] => Ok (p_hash, t_hash)
  | i :: ixs' =>
      (pc <- getitem pattern i;
       p_hash <- py_mod (d * p_hash + ord pc) q;
       tc <- getitem text i;
       t_hash <- py_mod (d * t_hash + ord tc) q;
       init_hashes text pattern d q ixs' p_hash t_hash)%res
  end.

(** ** Runs: the clock and the matchers *)

Section Matchers.

Variable clock : nat -> Z.
Variable getsizeof : str -> Z.

(** A run reads the clock: it maps the number of readings made so far
    to its outcome and the new number of readings. *)
Definition M (A : Type) : Type := nat -> result (A * nat).

Definition ret {A} (a : A) : M A := fun k => Ok (a, k).

Definition bind {A B} (m : M A) (f : A -> M B) : M B :=
  fun k =>
    match m k with
    | Ok (a, k') => f a k'
    | Raise e => Raise e
    end.

Definition lift {A} (r : result A) : M A :=
  fun k =>
    match r with
    | Ok a => Ok (a, k)
    | Raise e => Raise e
    end.

Definition perf_counter_ns : M Z := fun k => Ok (clock k, S k).

(** [for x in xs: body], the loop variables threaded as [s]. *)
Fixpoint for_each {St} (xs : list Z) (body : Z -> St -> M St) (s : St) : M St :=
  match xs with
  | [] => ret s
  | x :: xs' => bind (body x s) (for_each xs' body)
  end.

Declare Scope run_scope.
Delimit Scope run_scope with run.
Notation "x <- m ; f" := (bind m (fun x => f))
  (at level 61, m at next level, right associativity) : run_scope.
Notation "' pat <- m ; f" := (bind m (fun x => match x with pat => f end))
  (at level 61, pat pattern, m at next level, right associativity) : run_scope.

(** *** Naive matcher *)

(** One turn of [for i in range(n - m + 1)]. *)
Definition naive_body (text pattern : str) (m : Z) (i : Z)
    (st : list Z * list Naive.step) : M (list Z * list Naive.step) :=
  let '(matches, iterations) := st in
  (start_ns <- perf_counter_ns;
   '(comparisons, matched, details) <-
      lift (compare_chars text pattern i true (range m) 0 []);
   end_ns <- perf_counter_ns;
   let matches := if matched then matches ++ [i] else matches in
   ret (matches,
        iterations ++
          [Naive.mk i matched comparisons (end_ns - start_ns)
             (getsizeof text + getsizeof pattern) details]))%run.

Definition naive_string_matching_instrumented (text pattern : str)
    : M (list Z * list Naive.step) :=
  let n := len text in
  let m := len pattern in
  for_each (range (n - m + 1)) (naive_body text pattern m) ([], []).

(** *** Rabin-Karp matcher *)

(** One turn of [for i in range(n - m + 1)]: the check of offset [i]
    and, when [i < n - m], the roll to the next window.  The loop
    variables are [matches], [iterations] and [t_hash]. *)
Definition rk_body (text pattern : str) (d q n m h p_hash : Z) (i : Z)
    (st : list Z * list RK.step * Z) : M (list Z * list RK.step * Z) :=
  let '(matches, iterations, t_hash) := st in
  (start <- perf_counter_ns;
   '(matches, comparisons, matched_flag, step_details) <-
      lift (if p_hash =? t_hash then
              ('(comparisons, match_, step_details) <-
                  compare_chars text pattern i false (range m) 0 [];
               Ok (if match_ then matches ++ [i] else matches,
                   comparisons, match_, step_details))%res
            else Ok (matches, 0, false, [HashMismatch p_hash t_hash]));
   end_ <- perf_counter_ns;
   let iterations :=
     iterations ++
       [RK.mk (RK.Int i) RK.check p_hash t_hash matched_flag comparisons
          (end_ - start) (getsizeof text + getsizeof pattern) step_details] in
   if i <? n - m then
     (rh_start <- perf_counter_ns;
      tc <- lift (getitem text i);
      tn <- lift (getitem text (i + m));
      t_hash <- lift (py_mod (d * (t_hash - ord tc * h) + ord tn) q);
      rh_end <- perf_counter_ns;
      ret (matches,
           iterations ++
             [RK.mk (RK.PlusHalf i) RK.rolling_hash p_hash t_hash false 0
                (rh_end - rh_start) (getsizeof text + getsizeof pattern)
                [Rolled t_hash]],
           t_hash))
   else ret (matches, iterations, t_hash))%run.

Definition rabin_karp_instrumented (text pattern : str) (d q : Z)
    : M (list Z * list RK.step) :=
  let n := len text in
  let m := len pattern in
  (h <- lift (pow d (m - 1) q);
   t0 <- perf_counter_ns;
   '(p_hash, t_hash) <- lift (init_hashes text pattern d q (range m) 0 0);
   t1 <- perf_counter_ns;
   let iterations :=
     [RK.mk (RK.Int (-1)) RK.init_hash p_hash t_hash false 0 (t1 - t0)
        (getsizeof text + getsizeof pattern)
        [InitialHashes p_hash t_hash h]] in
   '(matches, iterations, _) <-
      for_each (range (n - m + 1)) (rk_body text pattern d q n m h p_hash)
        ([], iterations, t_hash);
   ret (matches, iterations))%run.

(** The call with the default arguments [d = 256], [q = 101]. *)
Definition rabin_karp_default (text pattern : str) : M (list Z * list RK.step) :=
  rabin_karp_instrumented text pattern 256 101.

End Matchers.

Arguments ret {A} a _.
Arguments bind {A B} m f _.
Arguments lift {A} r _.

(** ** Reference notions the properties are stated with *)

(** The slice [text[i : i+m]]. *)
Definition window (text : str) (i m : Z) : str :=
  firstn (Z.to_nat m) (skipn (Z.to_nat i) text).

(** The pattern occurs in the text at offset [i]. *)
Definition occurs_at (text pattern : str) (i : Z) : Prop :=
  window text i (len pattern) = pattern.

Definition str_eqb (a b : str) : bool :=
  if list_eq_dec Z.eq_dec a b then true else false.

Definition occurs_atb (text pattern : str) (i : Z) : bool :=
  str_eqb (window text i (len pattern)) pattern.

(** The character at a valid index, [0] elsewhere. *)
Definition char_at (s : str) (i : Z) : char := nth (Z.to_nat i) s 0.

(** The hash of a window computed from scratch:
    [hash = (d*hash + ord(c)) mod q] over its characters, from [0]. *)
Definition hash_of (d q : Z) (w : str) : Z :=
  fold_left (fun h c => (d * h + ord c) mod q) w 0.

(** The number of characters a left-to-right comparison of [w] with [p]
    looks at when it stops at the first difference. *)
Fixpoint examined (w p : str) : Z :=
  match w, p with
  | tc :: w', pc :: p' => if tc =? pc then 1 + examined w' p' else 1
  | _, _ => 0
  end.

(** The invariant the validator establishes. *)
Definition valid_request (text pattern : str) : Prop :=
  1 <= len pattern /\ len pattern <= len text /\ len text <= MAX_TEXT_LEN.

(** A clock and a size function to run the matchers with. *)
Definition demo_clock (k : nat) : Z := 1000 * Z.of_nat k.
Definition demo_getsizeof (s : str) : Z := 49 + len s.


(** The window read as a number in base [d], most significant character
    first; [hash_of] is its residue. *)
Definition poly (d : Z) (w : str) : Z :=
  fold_left (fun h c => d * h + ord c) w 0.

(** What the trace of the naive matcher says at offset [i]. *)
Definition naive_view (text pattern : str) (i : Z) : Z * bool * Z :=
  (i, occurs_atb text pattern i, examined (window text i (len pattern)) pattern).

Definition naive_details_ok (s : Naive.step) : Prop :=
  Z.of_nat (length (Naive.details s)) = Naive.comparisons s.

(** The loop invariant of the naive matcher after the offsets [pre]. *)
Definition naive_inv (text pattern : str) (pre : list Z)
    (st : list Z * list Naive.step) : Prop :=
  fst st = filter (occurs_atb text pattern) pre
  /\ map Naive.view (snd st) = map (naive_view text pattern) pre
  /\ Forall naive_details_ok (snd st).

(** What the Rabin-Karp trace says: at the initial step, at the check of
    offset [i], and at the roll that follows it. *)
Definition rk_init_view (text pattern : str) (d q : Z)
    : RK.position * RK.phase_tag * Z * Z * bool * Z :=
  (RK.Int (-1), RK.init_hash, hash_of d q pattern,
   hash_of d q (window text 0 (len pattern)), false, 0).

Definition rk_check_view (text pattern : str) (d q : Z) (i : Z)
    : RK.position * RK.phase_tag * Z * Z * bool * Z :=
  let ph := hash_of d q pattern in
  let th := hash_of d q (window text i (len pattern)) in
  (RK.Int i, RK.check, ph, th, occurs_atb text pattern i,
   if ph =? th then examined (window text i (len pattern)) pattern else 0).

Definition rk_roll_view (text pattern : str) (d q : Z) (i : Z)
    : RK.position * RK.phase_tag * Z * Z * bool * Z :=
  (RK.PlusHalf i, RK.rolling_hash, hash_of d q pattern,
   hash_of d q (window text (i + 1) (len pattern)), false, 0).

Definition rk_turn_views (text pattern : str) (d q : Z) (i : Z)
    : list (RK.position * RK.phase_tag * Z * Z * bool * Z) :=
  rk_check_view text pattern d q i ::
  (if i <? len text - len pattern then [rk_roll_view text pattern d q i] else []).

(** The display lines of a step, by phase. *)
Definition rk_details_ok (h : Z) (s : RK.step) : Prop :=
  match RK.phase s with
  | RK.init_hash =>
      RK.details s = [InitialHashes (RK.p_hash s) (RK.t_hash s) h]
  | RK.check =>
      if RK.p_hash s =? RK.t_hash s
      then Z.of_nat (length (RK.details s)) = RK.comparisons s
      else RK.details s = [HashMismatch (RK.p_hash s) (RK.t_hash s)]
  | RK.rolling_hash => RK.details s = [Rolled (RK.t_hash s)]
  end.

(** The loop invariant of the Rabin-Karp matcher after the offsets
    [pre]; [init] is the step appended before the loop. *)
Definition rk_inv (text pattern : str) (d q : Z) (init : RK.step)
    (pre : list Z) (st : list Z * list RK.step * Z) : Prop :=
  let '(matches, iterations, t_hash) := st in
  matches = filter (occurs_atb text pattern) pre
  /\ (exists rest,
        iterations = init :: rest
        /\ map RK.view rest = flat_map (rk_turn_views text pattern d q) pre
        /\ Forall (rk_details_ok (d ^ (len pattern - 1) mod q)) rest)
  /\ (len pre <= len text - len pattern ->
      t_hash = hash_of d q (window text (len pre) (len pattern))).



Definition rk_observation (r : result (list Z * list RK.step * nat))
    : result (list Z * list Z) :=
  match r with
  | Ok (matches, iterations, _) => Ok (matches, map RK.comparisons iterations)
  | Raise e => Raise e
  end.




(** The offsets at which the pattern occurs, in increasing order. *)
Definition occurrences (text pattern : str) : list Z :=
  filter (occurs_atb text pattern) (range (len text - len pattern + 1)).

(** [k] is the first index at which the window at offset [i] and the
    pattern differ. *)
Definition first_mismatch (text pattern : str) (i k : Z) : Prop :=
  0 <= k < len pattern
  /\ (forall j, 0 <= j < k -> char_at text (i + j) = char_at pattern j)
  /\ char_at text (i + k) <> char_at pattern k.





(** ** The caller, display lines, timings and totals *)

(** The three calls of the script's [try] block: the request is
    validated, then handed to the naive matcher and to the Rabin-Karp
    matcher with its default arguments.  An exception of any of them
    leaves the block (the script shows it as an error).  The rendering of
    the results is not part of the model. *)
Definition execution (clock : nat -> Z) (getsizeof : str -> Z) (text pattern : str)
    : M ((list Z * list Naive.step) * (list Z * list RK.step)) :=
  bind (lift (validate_inputs text pattern)) (fun tp =>
  let '(text, pattern) := tp in
  bind (naive_string_matching_instrumented clock getsizeof text pattern) (fun nv =>
  let '(naive_matches, naive_iters) := nv in
  bind (rabin_karp_instrumented clock getsizeof text pattern 256 101) (fun rk =>
  let '(rk_matches, rk_iters) := rk in
  ret ((naive_matches, naive_iters), (rk_matches, rk_iters))))).

(** The value of a "matches" metric: [str(matches) if matches else "None"]. *)
Definition matches_metric (matches : list Z) : option (list Z) :=
  match matches with
  | [] => None
  | _ => Some matches
  end.

(** The detail lines written by a left-to-right comparison of the window
    [w] at offset [i] with [p], from pattern index [j] on. *)
Fixpoint scan_details (stop : bool) (i j : Z) (w p : str) : list detail :=
  match w, p with
  | tc :: w', pc :: p' =>
      if tc =? pc then CharEq (i + j) tc j pc :: scan_details stop i (j + 1) w' p'
      else [CharNeq (i + j) tc j pc stop]
  | _, _ => []
  end.

Definition detail_lines (stop : bool) (text pattern : str) (i : Z) : list detail :=
  scan_details stop i 0 (window text i (len pattern)) pattern.

(** The line that compares [text[i+j]] with [pattern[j]]. *)
Definition char_line (stop : bool) (text pattern : str) (i j : Z) : detail :=
  if char_at text (i + j) =? char_at pattern j
  then CharEq (i + j) (char_at text (i + j)) j (char_at pattern j)
  else CharNeq (i + j) (char_at text (i + j)) j (char_at pattern j) stop.

(** What a step of the naive trace carries besides its view, in a run
    started after [k0] clock readings: the step of offset [i] is timed by
    the readings [k0 + 2i] and [k0 + 2i + 1]. *)
Definition naive_step_frame (clock : nat -> Z) (getsizeof : str -> Z)
    (text pattern : str) (k0 : nat) (s : Naive.step) : Prop :=
  let r := (k0 + 2 * Z.to_nat (Naive.index s))%nat in
  Naive.iteration_time_ns s = clock (S r) - clock r
  /\ Naive.memory_bytes s = getsizeof text + getsizeof pattern
  /\ Naive.details s = detail_lines true text pattern (Naive.index s).

(** The same for a check or a roll of the Rabin-Karp trace: after the
    two readings of the initial step, the check of offset [i] is timed by
    the readings [k0 + 2 + 4i] and the next, its roll by [k0 + 4 + 4i] and
    the next. *)
Definition rk_step_frame (clock : nat -> Z) (getsizeof : str -> Z)
    (text pattern : str) (k0 : nat) (s : RK.step) : Prop :=
  RK.memory_bytes s = getsizeof text + getsizeof pattern
  /\ match RK.index s with
     | RK.Int i =>
         let r := (k0 + 2 + 4 * Z.to_nat i)%nat in
         RK.iteration_time_ns s = clock (S r) - clock r
         /\ RK.details s
            = (if RK.p_hash s =? RK.t_hash s
               then detail_lines false text pattern i
               else [HashMismatch (RK.p_hash s) (RK.t_hash s)])
     | RK.PlusHalf i =>
         let r := (k0 + 4 + 4 * Z.to_nat i)%nat in
         RK.iteration_time_ns s = clock (S r) - clock r
         /\ RK.details s = [Rolled (RK.t_hash s)]
     end.


(** * Properties *)

(** ** Ranges and indexing *)

Lemma range_nat (k : nat) : range (Z.of_nat k) = map Z.of_nat (seq 0 k).
Proof. unfold range. now rewrite Nat2Z.id. Qed.

Lemma range_succ (k : Z) : 0 <= k -> range (k + 1) = range k ++ [k].
Proof.
  intros Hk. unfold range.
  replace (Z.to_nat (k + 1)) with (Z.to_nat k + 1)%nat by lia.
  rewrite seq_app, map_app. simpl. now rewrite Z2Nat.id.
Qed.

Lemma in_range (k x : Z) : In x (range k) <-> 0 <= x < k.
Proof.
  unfold range. rewrite in_map_iff. split.
  - intros (j & <- & Hj). apply in_seq in Hj. lia.
  - intros Hx. exists (Z.to_nat x). split; [lia | apply in_seq; lia].
Qed.

Lemma length_range (k : Z) : 0 <= k -> len (range k) = k.
Proof. intros Hk. unfold len, range. rewrite length_map, length_seq. lia. Qed.

(** A position in [range k] determines what comes before it. *)
Lemma range_split (k : Z) (pre post : list Z) (x : Z) :
  range k = pre ++ x :: post ->
  pre = range x /\ x = len pre /\ 0 <= x < k.
Proof.
  intros H.
  assert (Hin : In x (range k)) by (rewrite H; apply in_elt).
  apply in_range in Hin.
  assert (Hx : x = len pre).
  { unfold range in H.
    assert (Hn : nth_error (map Z.of_nat (seq 0 (Z.to_nat k))) (length pre) = Some x).
    { rewrite H, nth_error_app2, Nat.sub_diag by lia. reflexivity. }
    rewrite nth_error_map in Hn.
    destruct (nth_error (seq 0 (Z.to_nat k)) (length pre)) as [j|] eqn:Hj; [|discriminate].
    assert (Hlt : (length pre < length (seq 0 (Z.to_nat k)))%nat)
      by (apply nth_error_Some; congruence).
    rewrite length_seq in Hlt.
    rewrite nth_error_nth' with (d := 0%nat) in Hj by (rewrite length_seq; lia).
    rewrite seq_nth in Hj by lia. injection Hj as <-. simpl in Hn.
    injection Hn as <-. reflexivity. }
  repeat split; try lia.
  assert (Hf : firstn (length pre) (range k) = pre)
    by (rewrite H, firstn_app, Nat.sub_diag, firstn_all; simpl; apply app_nil_r).
  rewrite <- Hf. unfold range, len in *. rewrite firstn_map. f_equal.
  replace (Z.to_nat k) with (length pre + (Z.to_nat k - length pre))%nat by lia.
  rewrite seq_app, firstn_app, length_seq, Nat.sub_diag.
  rewrite firstn_all2 by (rewrite length_seq; lia).
  simpl. rewrite app_nil_r. f_equal. lia.
Qed.

Lemma getitem_ok (s : str) (i : Z) :
  0 <= i < len s -> getitem s i = Ok (char_at s i).
Proof.
  intros Hi. unfold getitem, char_at.
  destruct (i <? 0) eqn:E; [lia|].
  replace (0 <=? i) with true by lia. replace (i <? len s) with true by lia. simpl.
  unfold len in Hi.
  rewrite nth_error_nth' with (d := 0) by lia. reflexivity.
Qed.

Lemma py_mod_ok (a q : Z) : q <> 0 -> py_mod a q = Ok (a mod q).
Proof. intros Hq. unfold py_mod. destruct (q =? 0) eqn:E; [lia | reflexivity]. Qed.

(** ** Modular exponentiation *)

Lemma pow_pos_mod_spec (b : Z) (e : positive) (q : Z) :
  pow_pos_mod b e q = (b ^ Zpos e) mod q.
Proof.
  induction e as [e IH | e IH |]; simpl pow_pos_mod.
  - rewrite IH. rewrite Pos2Z.inj_xI.
    replace (2 * Z.pos e + 1) with (Z.pos e + Z.pos e + 1) by lia.
    rewrite !Z.pow_add_r, Z.pow_1_r by lia.
    rewrite <- (Zmult_mod_idemp_l (b ^ Z.pos e * b ^ Z.pos e)).
    rewrite (Zmult_mod (b ^ Z.pos e) (b ^ Z.pos e)). reflexivity.
  - rewrite IH. rewrite Pos2Z.inj_xO.
    replace (2 * Z.pos e) with (Z.pos e + Z.pos e) by lia.
    rewrite Z.pow_add_r by lia. rewrite <- Zmult_mod. reflexivity.
  - now rewrite Z.pow_1_r.
Qed.

Lemma pow_ok (b e q : Z) :
  q <> 0 -> 0 <= e -> pow b e q = Ok (b ^ e mod q).
Proof.
  intros Hq He. unfold pow.
  destruct (q =? 0) eqn:E; [lia|].
  replace (0 <=? e) with true by lia.
  destruct e as [| p | p]; simpl pow_nonneg_mod; [reflexivity | | lia].
  now rewrite pow_pos_mod_spec.
Qed.

Lemma pow_zero_modulus (b e : Z) :
  pow b e 0 = Raise (ValueError "pow() 3rd argument cannot be 0").
Proof. reflexivity. Qed.

(** ** Loops *)

(** A loop invariant indexed by the offsets already visited: when every
    turn succeeds and extends the invariant, so does the whole loop. *)
Lemma for_each_inv {St : Type} (body : Z -> St -> M St)
    (Inv : list Z -> St -> Prop) (all : list Z) :
  (forall pre x post s k,
      all = pre ++ x :: post -> Inv pre s ->
      exists s' k', body x s k = Ok (s', k') /\ Inv (pre ++ [x]) s') ->
  forall xs done s k,
    all = done ++ xs -> Inv done s ->
    exists s' k', for_each xs body s k = Ok (s', k') /\ Inv all s'.
Proof.
  intros Hbody xs. induction xs as [| x xs IH]; intros done s k Hall HI.
  - rewrite app_nil_r in Hall. subst done. simpl. unfold ret. eauto.
  - destruct (Hbody done x xs s k Hall HI) as (s1 & k1 & Hb & HI1).
    simpl. unfold bind. rewrite Hb.
    apply (IH (done ++ [x])); [| exact HI1].
    now rewrite <- app_assoc.
Qed.

(** ** Windows *)

Section Windows.

Variables (text : str) (i m : Z).
Hypothesis Hi : 0 <= i.
Hypothesis Hm : 0 <= m.
Hypothesis Hfit : i + m <= len text.

Lemma length_window : len (window text i m) = m.
Proof using Hi Hm Hfit.
  unfold len, window in *. rewrite length_firstn, length_skipn. lia.
Qed.

Lemma char_at_window (j : Z) :
  0 <= j < m -> char_at (window text i m) j = char_at text (i + j).
Proof using Hi.
  intros Hj. unfold char_at, window.
  rewrite nth_firstn.
  replace (Z.to_nat j <? Z.to_nat m)%nat with true
    by (symmetry; apply Nat.ltb_lt; lia).
  rewrite nth_skipn. f_equal. lia.
Qed.

End Windows.

Lemma skipn_cons_nth (l : str) (a : nat) :
  (a < length l)%nat -> skipn a l = nth a l 0 :: skipn (S a) l.
Proof.
  revert l. induction a as [| a IH]; intros [| x l] H; simpl in *; try lia.
  - reflexivity.
  - apply IH. lia.
Qed.

Lemma str_eqb_eq (a b : str) : str_eqb a b = true <-> a = b.
Proof. unfold str_eqb. destruct (list_eq_dec Z.eq_dec a b); split; congruence. Qed.

Lemma str_eqb_cons (x y : Z) (a b : str) :
  str_eqb (x :: a) (y :: b) = if x =? y then str_eqb a b else false.
Proof.
  destruct (x =? y) eqn:E.
  - apply Z.eqb_eq in E. subst y.
    destruct (str_eqb a b) eqn:F.
    + apply str_eqb_eq in F. apply str_eqb_eq. congruence.
    + destruct (str_eqb (x :: a) (x :: b)) eqn:G; [| reflexivity].
      apply str_eqb_eq in G. injection G as G.
      apply str_eqb_eq in G. congruence.
  - apply Z.eqb_neq in E.
    destruct (str_eqb (x :: a) (y :: b)) eqn:G; [| reflexivity].
    apply str_eqb_eq in G. congruence.
Qed.

Lemma occurs_atb_spec (text pattern : str) (i : Z) :
  occurs_atb text pattern i = true <-> occurs_at text pattern i.
Proof. apply str_eqb_eq. Qed.

(** An occurrence is an offset at which every character agrees. *)
Lemma occurs_at_chars (text pattern : str) (i : Z) :
  0 <= i -> i + len pattern <= len text ->
  (occurs_at text pattern i <->
   forall j, 0 <= j < len pattern -> char_at text (i + j) = char_at pattern j).
Proof.
  intros Hi Hfit.
  assert (Hm : 0 <= len pattern) by (unfold len; lia).
  pose proof (length_window text i (len pattern) Hi Hm Hfit) as Hlen.
  unfold occurs_at. split.
  - intros Hw j Hj. rewrite <- (char_at_window text i (len pattern) Hi j Hj).
    now rewrite Hw.
  - intros Hall. apply nth_ext with (d := 0) (d' := 0).
    + unfold len in *. lia.
    + intros k Hk.
      assert (Hk' : 0 <= Z.of_nat k < len pattern) by (unfold len in *; lia).
      pose proof (char_at_window text i (len pattern) Hi _ Hk') as Hc.
      specialize (Hall _ Hk'). unfold char_at in *.
      rewrite Nat2Z.id in *. congruence.
Qed.

(** ** The comparison loop *)

Lemma examined_bounds (w p : str) :
  0 <= examined w p <= len p.
Proof.
  revert p. induction w as [| x w IH]; intros [| y p]; cbn [examined];
    unfold len in *; cbn [length]; try lia.
  specialize (IH p). destruct (x =? y); lia.
Qed.

Lemma examined_self (p : str) : examined p p = len p.
Proof.
  induction p as [| x p IH]; [reflexivity|].
  cbn [examined]. rewrite Z.eqb_refl, IH. unfold len. cbn [length]. lia.
Qed.

(** [k] is the first index at which [w] and [p] differ: [k + 1]
    characters are looked at. *)
Lemma examined_first_mismatch (w p : str) (k : Z) :
  len w = len p -> 0 <= k < len p ->
  (forall j, 0 <= j < k -> char_at w j = char_at p j) ->
  char_at w k <> char_at p k ->
  examined w p = k + 1.
Proof.
  revert p k. induction w as [| x w IH]; intros [| y p] k Hlen Hk Hpre Hneq;
    unfold len in *; cbn [length] in *; try lia.
  cbn [examined]. destruct (Z.eq_dec k 0) as [-> | Hk0].
  - unfold char_at in Hneq. simpl in Hneq.
    destruct (x =? y) eqn:E; [apply Z.eqb_eq in E; congruence | reflexivity].
  - assert (H0 : x = y) by (apply (Hpre 0); lia).
    subst y. rewrite Z.eqb_refl.
    rewrite (IH p (k - 1)); try lia.
    + intros j Hj. specialize (Hpre (j + 1) ltac:(lia)).
      unfold char_at in *. replace (Z.to_nat (j + 1)) with (S (Z.to_nat j)) in Hpre by lia.
      exact Hpre.
    + unfold char_at in *. replace (Z.to_nat k) with (S (Z.to_nat (k - 1))) in Hneq by lia.
      exact Hneq.
Qed.

Section CompareChars.

Variables (text pattern : str) (i : Z) (stop : bool).
Hypothesis Hi : 0 <= i.
Hypothesis Hfit : i + len pattern <= len text.

Let w := window text i (len pattern).

Lemma compare_chars_from (r a : nat) (c : Z) (ds : list detail) :
  (a + r = length pattern)%nat ->
  exists ds',
    compare_chars text pattern i stop (map Z.of_nat (seq a r)) c ds
    = Ok (c + examined (skipn a w) (skipn a pattern),
          str_eqb (skipn a w) (skipn a pattern),
          ds ++ ds')
    /\ Z.of_nat (length ds') = examined (skipn a w) (skipn a pattern).
Proof using Hi Hfit.
  assert (Hm : 0 <= len pattern) by (unfold len; lia).
  pose proof (length_window text i (len pattern) Hi Hm Hfit) as Hlw.
  fold w in Hlw. unfold len in Hlw.
  revert a c ds. induction r as [| r IH]; intros a c ds Har.
  - exists []. simpl.
    rewrite !skipn_all2 by lia. simpl.
    rewrite Z.add_0_r, app_nil_r. split; reflexivity.
  - simpl seq. simpl map. simpl compare_chars.
    assert (Ha : 0 <= Z.of_nat a < len pattern) by (unfold len; lia).
    rewrite getitem_ok by (unfold len in *; lia).
    rewrite (getitem_ok pattern) by exact Ha.
    simpl rbind.
    rewrite (skipn_cons_nth w a), (skipn_cons_nth pattern a) by lia.
    assert (Hw : nth a w 0 = char_at text (i + Z.of_nat a)).
    { rewrite <- (char_at_window text i (len pattern) Hi _ Ha).
      unfold char_at. now rewrite Nat2Z.id. }
    assert (Hp : nth a pattern 0 = char_at pattern (Z.of_nat a))
      by (unfold char_at; now rewrite Nat2Z.id).
    rewrite Hw, Hp.
    generalize (char_at text (i + Z.of_nat a)) as tc.
    generalize (char_at pattern (Z.of_nat a)) as pc. intros pc tc.
    cbn [examined]. rewrite str_eqb_cons.
    destruct (tc =? pc) eqn:E; cbn [negb].
    + destruct (IH (S a) (c + 1) (ds ++ [CharEq (i + Z.of_nat a) tc (Z.of_nat a) pc]))
        as (ds' & Heq & Hlen); [lia|].
      eexists (_ :: ds'). rewrite Heq. rewrite <- app_assoc. cbn [app].
      split; [f_equal; f_equal; f_equal; lia |].
      cbn [length]. lia.
    + eexists [_]. split; reflexivity.
Qed.

(** The loop over [range(m)] from a zero counter and no details. *)
Lemma compare_chars_ok :
  exists ds,
    compare_chars text pattern i stop (range (len pattern)) 0 []
    = Ok (examined w pattern, str_eqb w pattern, ds)
    /\ Z.of_nat (length ds) = examined w pattern.
Proof using Hi Hfit.
  destruct (compare_chars_from (length pattern) 0 0 [] eq_refl) as (ds & H & Hl).
  exists ds. unfold len at 1. rewrite range_nat. simpl in H. now rewrite H.
Qed.

End CompareChars.

(** ** The naive matcher, turn by turn *)

Section NaiveRun.

Variable clock : nat -> Z.
Variable getsizeof : str -> Z.
Variables text pattern : str.

Let n := len text.
Let m := len pattern.

Lemma naive_body_inv (pre post : list Z) (x : Z) st (k : nat) :
  range (n - m + 1) = pre ++ x :: post ->
  naive_inv text pattern pre st ->
  exists st' k',
    naive_body clock getsizeof text pattern m x st k = Ok (st', k')
    /\ naive_inv text pattern (pre ++ [x]) st'.
Proof.
  intros Hsplit (Hm & Hv & Hd). destruct st as [matches iterations].
  apply range_split in Hsplit. destruct Hsplit as (_ & _ & Hx).
  destruct (compare_chars_ok text pattern x true) as (ds & Hcmp & Hlen);
    [lia | fold n m; lia |].
  unfold naive_body, bind, perf_counter_ns, lift. fold m in Hcmp. rewrite Hcmp.
  unfold ret. do 2 eexists. split; [reflexivity|].
  unfold naive_inv. cbn [fst snd] in *.
  rewrite filter_app, !map_app. cbn [filter map].
  fold (occurs_atb text pattern x). repeat split.
  - rewrite <- Hm. unfold occurs_atb, m.
    destruct (str_eqb _ _); [reflexivity | now rewrite app_nil_r].
  - now rewrite Hv.
  - apply Forall_app. split; [exact Hd|]. constructor; [exact Hlen | constructor].
Qed.

Lemma naive_run (k : nat) :
  exists iterations k',
    naive_string_matching_instrumented clock getsizeof text pattern k
    = Ok ((occurrences text pattern, iterations), k')
    /\ map Naive.view iterations = map (naive_view text pattern) (range (n - m + 1))
    /\ Forall naive_details_ok iterations.
Proof.
  unfold naive_string_matching_instrumented. fold n m.
  destruct (for_each_inv (naive_body clock getsizeof text pattern m) (naive_inv text pattern)
              (range (n - m + 1))
              (fun pre x post s k => naive_body_inv pre post x s k)
              (range (n - m + 1)) [] ([], []) k eq_refl)
    as ([matches iterations] & k' & Hrun & Hm & Hv & Hd).
  - repeat split; constructor.
  - cbn [fst snd] in *. subst matches. eauto.
Qed.

End NaiveRun.

(** ** Sortedness of the reported offsets *)

Lemma range_sorted (k : Z) : StronglySorted Z.lt (range k).
Proof.
  unfold range. generalize 0%nat as a.
  induction (Z.to_nat k) as [| r IH]; intros a; simpl; constructor.
  - apply IH.
  - apply Forall_forall. intros x Hx. apply in_map_iff in Hx.
    destruct Hx as (j & <- & Hj). apply in_seq in Hj. lia.
Qed.

Lemma filter_sorted (f : Z -> bool) (l : list Z) :
  StronglySorted Z.lt l -> StronglySorted Z.lt (filter f l).
Proof.
  induction 1 as [| x l Hs IH Hall]; simpl; [constructor|].
  destruct (f x); [| exact IH].
  constructor; [exact IH|].
  apply Forall_forall. intros y Hy. apply filter_In in Hy.
  rewrite Forall_forall in Hall. apply Hall. tauto.
Qed.

(** ** Hashes *)

Lemma hash_of_snoc (d q : Z) (w : str) (c : Z) :
  hash_of d q (w ++ [c]) = (d * hash_of d q w + ord c) mod q.
Proof. unfold hash_of. now rewrite fold_left_app. Qed.

Lemma poly_snoc (d : Z) (w : str) (c : Z) :
  poly d (w ++ [c]) = d * poly d w + ord c.
Proof. unfold poly. now rewrite fold_left_app. Qed.

Lemma hash_of_poly (d q : Z) (w : str) : hash_of d q w = poly d w mod q.
Proof.
  induction w as [| c w IH] using rev_ind.
  - unfold hash_of, poly. cbn [fold_left]. now rewrite Zmod_0_l.
  - rewrite hash_of_snoc, poly_snoc, IH.
    rewrite Zplus_mod, Zmult_mod_idemp_r, <- Zplus_mod. reflexivity.
Qed.

Lemma poly_cons (d : Z) (c : Z) (w : str) :
  poly d (c :: w) = ord c * d ^ len w + poly d w.
Proof.
  induction w as [| x w IH] using rev_ind.
  - cbn. unfold ord. lia.
  - rewrite app_comm_cons, !poly_snoc, IH.
    unfold len. rewrite length_app. cbn [length].
    replace (Z.of_nat (length w + 1)) with (Z.of_nat (length w) + 1) by lia.
    rewrite Z.pow_add_r, Z.pow_1_r by lia. ring.
Qed.

(** The roll formula: dropping the leading character [c0] and appending
    [c] maps the hash of the old window to the hash of the new one. *)
Lemma roll_hash (d q : Z) (c0 : Z) (w : str) (c : Z) :
  q <> 0 ->
  (d * (hash_of d q (c0 :: w) - ord c0 * (d ^ len w mod q)) + ord c) mod q
  = hash_of d q (w ++ [c]).
Proof.
  intros Hq. rewrite !hash_of_poly, poly_snoc, poly_cons.
  set (P := poly d w). set (D := d ^ len w). set (X := ord c0 * D + P).
  pose proof (Z.div_mod X q Hq) as HX. pose proof (Z.div_mod D q Hq) as HD.
  replace (d * (X mod q - ord c0 * (D mod q)) + ord c)
    with (d * P + ord c + (d * (ord c0 * (D / q) - X / q)) * q).
  - apply Z_mod_plus_full.
  - replace (X mod q) with (X - q * (X / q)) by lia.
    replace (D mod q) with (D - q * (D / q)) by lia.
    unfold X. ring.
Qed.


Lemma firstn_succ_nth (l : str) (k : nat) :
  (k < length l)%nat -> firstn (S k) l = firstn k l ++ [nth k l 0].
Proof.
  revert l. induction k as [| k IH]; intros [| x l] H; cbn [length] in H; try lia.
  - reflexivity.
  - cbn [firstn nth app]. cbn [firstn] in IH. rewrite (IH l) by lia. reflexivity.
Qed.

Lemma window_cons (text : str) (i m : Z) :
  0 <= i -> 1 <= m -> i + m <= len text ->
  window text i m = char_at text i :: window text (i + 1) (m - 1).
Proof.
  intros Hi Hm Hfit. unfold window, char_at, len in *.
  rewrite (skipn_cons_nth text (Z.to_nat i)) by lia.
  replace (Z.to_nat m) with (S (Z.to_nat (m - 1))) by lia.
  cbn [firstn]. do 3 f_equal. lia.
Qed.

Lemma window_snoc (text : str) (i m : Z) :
  0 <= i -> 0 <= m -> i + m < len text ->
  window text i (m + 1) = window text i m ++ [char_at text (i + m)].
Proof.
  intros Hi Hm Hfit. unfold window, char_at, len in *.
  replace (Z.to_nat (m + 1)) with (S (Z.to_nat m)) by lia.
  rewrite firstn_succ_nth by (rewrite length_skipn; lia).
  rewrite nth_skipn. do 3 f_equal. lia.
Qed.

(** Rolling from offset [i] to offset [i + 1]. *)
Lemma roll_window (text : str) (d q i m : Z) :
  q <> 0 -> 0 <= i -> 1 <= m -> i + m < len text ->
  (d * (hash_of d q (window text i m) - ord (char_at text i) * (d ^ (m - 1) mod q))
   + ord (char_at text (i + m))) mod q
  = hash_of d q (window text (i + 1) m).
Proof.
  intros Hq Hi Hm Hfit.
  rewrite (window_cons text i m) by lia.
  replace (window text (i + 1) m)
    with (window text (i + 1) (m - 1) ++ [char_at text (i + m)]).
  - pose proof (roll_hash d q (char_at text i) (window text (i + 1) (m - 1))
                  (char_at text (i + m)) Hq) as H.
    rewrite length_window in H by lia. exact H.
  - replace m with (m - 1 + 1) at 3 by lia.
    rewrite window_snoc by lia. do 3 f_equal. lia.
Qed.

(** ** The initial hashes *)

Lemma init_hashes_app (text pattern : str) (d q : Z) (xs ys : list Z) (p t : Z) :
  init_hashes text pattern d q (xs ++ ys) p t
  = rbind (init_hashes text pattern d q xs p t)
      (fun pt => init_hashes text pattern d q ys (fst pt) (snd pt)).
Proof.
  revert p t. induction xs as [| x xs IH]; intros p t; [reflexivity|].
  cbn [app init_hashes].
  destruct (getitem pattern x); cbn [rbind]; [| reflexivity].
  destruct (py_mod _ q); cbn [rbind]; [| reflexivity].
  destruct (getitem text x); cbn [rbind]; [| reflexivity].
  destruct (py_mod _ q); cbn [rbind]; [| reflexivity].
  apply IH.
Qed.

Lemma init_hashes_prefix (text pattern : str) (d q : Z) (k : nat) :
  q <> 0 -> len pattern <= len text -> Z.of_nat k <= len pattern ->
  init_hashes text pattern d q (range (Z.of_nat k)) 0 0
  = Ok (hash_of d q (firstn k pattern), hash_of d q (firstn k text)).
Proof.
  intros Hq Hmn. induction k as [| k IH]; intros Hk; [reflexivity|].
  rewrite Nat2Z.inj_succ, <- Z.add_1_r, range_succ by lia.
  rewrite init_hashes_app, IH by lia. cbn [rbind fst snd init_hashes].
  rewrite !getitem_ok by lia. cbn [rbind].
  rewrite !py_mod_ok by exact Hq. cbn [rbind].
  unfold len in *.
  rewrite !firstn_succ_nth, !hash_of_snoc by lia.
  unfold char_at. now rewrite Nat2Z.id.
Qed.

Lemma init_hashes_ok (text pattern : str) (d q : Z) :
  q <> 0 -> len pattern <= len text ->
  init_hashes text pattern d q (range (len pattern)) 0 0
  = Ok (hash_of d q pattern, hash_of d q (window text 0 (len pattern))).
Proof.
  intros Hq Hmn. unfold len at 1. rewrite init_hashes_prefix by (unfold len in *; lia).
  unfold window, len. cbn [Z.to_nat skipn]. rewrite Nat2Z.id, firstn_all. reflexivity.
Qed.

(** ** The Rabin-Karp matcher, turn by turn *)

(** Equal windows have equal hashes: an occurrence passes the hash test. *)
Lemma occurs_hash (text pattern : str) (d q : Z) (i : Z) :
  occurs_at text pattern i ->
  hash_of d q pattern = hash_of d q (window text i (len pattern)).
Proof. unfold occurs_at. now intros ->. Qed.

Section RabinKarpRun.

Variable clock : nat -> Z.
Variable getsizeof : str -> Z.
Variables (text pattern : str) (d q : Z).

Let n := len text.
Let m := len pattern.
Let h := d ^ (m - 1) mod q.
Let p_hash := hash_of d q pattern.

Hypothesis Hq : q <> 0.
Hypothesis Hm : 1 <= m.
Hypothesis Hmn : m <= n.

Lemma rk_body_inv (init : RK.step) (pre post : list Z) (x : Z) st (k : nat) :
  range (n - m + 1) = pre ++ x :: post ->
  rk_inv text pattern d q init pre st ->
  exists st' k',
    rk_body clock getsizeof text pattern d q n m h p_hash x st k = Ok (st', k')
    /\ rk_inv text pattern d q init (pre ++ [x]) st'.
Proof using Hq Hm Hmn.
  intros Hsplit Hinv. destruct st as [[matches iterations] t_hash].
  destruct Hinv as (Hms & (rest & Hit & Hv & Hd) & Ht).
  apply range_split in Hsplit. destruct Hsplit as (_ & Hx & Hr).
  fold n m in Ht. rewrite <- Hx in Ht. specialize (Ht ltac:(lia)).
  destruct (compare_chars_ok text pattern x false) as (ds & Hcmp & Hlen);
    [lia | fold n m; lia |].
  fold m in Hcmp, Hlen.
  (* the check *)
  assert (Hcheck :
    exists matches' c ds',
      (if p_hash =? t_hash
       then rbind (compare_chars text pattern x false (range m) 0 [])
              (fun '(comparisons, match_, step_details) =>
                 Ok (if match_ then matches ++ [x] else matches,
                     comparisons, match_, step_details))
       else Ok (matches, 0, false, [HashMismatch p_hash t_hash]))
      = Ok (matches', c, occurs_atb text pattern x, ds')
      /\ matches' = filter (occurs_atb text pattern) (pre ++ [x])
      /\ c = (if p_hash =? t_hash then examined (window text x m) pattern else 0)
      /\ (if p_hash =? t_hash then Z.of_nat (length ds') = c
          else ds' = [HashMismatch p_hash t_hash])).
  { rewrite filter_app, <- Hms. cbn [filter].
    destruct (p_hash =? t_hash) eqn:E.
    - rewrite Hcmp. cbn [rbind]. unfold occurs_atb at 1 2. fold m.
      destruct (str_eqb (window text x m) pattern);
        do 3 eexists; (split; [reflexivity|]);
        (split; [| split; [reflexivity | exact Hlen]]).
      + reflexivity.
      + now rewrite app_nil_r.
    - assert (Hno : occurs_atb text pattern x = false).
      { destruct (occurs_atb text pattern x) eqn:F; [| reflexivity].
        apply occurs_atb_spec in F. apply (occurs_hash _ _ d q) in F.
        apply Z.eqb_neq in E. fold p_hash m in F. congruence. }
      rewrite Hno. do 3 eexists. split; [reflexivity|].
      split; [now rewrite app_nil_r | split; reflexivity]. }
  destruct Hcheck as (matches' & c & ds' & Hck & Hms' & Hc & Hds').
  unfold rk_body, bind, perf_counter_ns, lift, ret.
  rewrite Hck.
  set (chk := RK.mk (RK.Int x) RK.check p_hash t_hash (occurs_atb text pattern x) c
                (clock (S k) - clock k) (getsizeof text + getsizeof pattern) ds').
  assert (Hchk_view : RK.view chk = rk_check_view text pattern d q x).
  { unfold RK.view, rk_check_view, chk. cbn. fold p_hash m. now rewrite <- Ht, Hc. }
  assert (Hchk_d : rk_details_ok h chk).
  { unfold rk_details_ok, chk. cbn. exact Hds'. }
  assert (Hsnoc : len (pre ++ [x]) = x + 1).
  { unfold len in *. rewrite length_app. cbn [length]. lia. }
  destruct (x <? n - m) eqn:Elt.
  - (* the roll *)
    rewrite !getitem_ok by (fold n; lia).
    rewrite py_mod_ok by exact Hq.
    do 2 eexists. split; [reflexivity|].
    unfold rk_inv. split; [exact Hms'|]. split.
    + exists (rest ++ [chk;
                RK.mk (RK.PlusHalf x) RK.rolling_hash p_hash
                  ((d * (t_hash - ord (char_at text x) * h)
                    + ord (char_at text (x + m))) mod q) false 0
                  (clock (S (S (S k))) - clock (S (S k)))
                  (getsizeof text + getsizeof pattern)
                  [Rolled ((d * (t_hash - ord (char_at text x) * h)
                            + ord (char_at text (x + m))) mod q)]]).
      split; [rewrite Hit; now rewrite <- app_assoc|].
      split.
      * rewrite map_app, flat_map_app, Hv. cbn [map flat_map].
        rewrite Hchk_view. unfold rk_turn_views. fold n m. rewrite Elt.
        rewrite app_nil_r. do 2 f_equal.
        unfold RK.view, rk_roll_view. cbn. fold p_hash m.
        rewrite Ht. unfold h. rewrite roll_window by (fold n; lia). reflexivity.
      * apply Forall_app. split; [exact Hd|].
        repeat constructor. exact Hchk_d.
    + intros _. rewrite Hsnoc, Ht. unfold h.
      rewrite roll_window by (fold n; lia). reflexivity.
  - do 2 eexists. split; [reflexivity|].
    unfold rk_inv. split; [exact Hms'|]. split.
    + exists (rest ++ [chk]).
      split; [now rewrite Hit|].
      split.
      * rewrite map_app, flat_map_app, Hv. cbn [map flat_map].
        rewrite Hchk_view. unfold rk_turn_views. fold n m. rewrite Elt.
        now rewrite app_nil_r.
      * apply Forall_app. split; [exact Hd|].
        repeat constructor. exact Hchk_d.
    + rewrite Hsnoc. fold n m. lia.
Qed.

(** The whole run: the reported offsets are the occurrences, the trace
    is the initial step followed by the views of every turn. *)
Lemma rk_run (k : nat) :
  exists rest k',
    rabin_karp_instrumented clock getsizeof text pattern d q k
    = Ok ((occurrences text pattern,
           RK.mk (RK.Int (-1)) RK.init_hash p_hash
             (hash_of d q (window text 0 m)) false 0
             (clock (S k) - clock k) (getsizeof text + getsizeof pattern)
             [InitialHashes p_hash (hash_of d q (window text 0 m)) h]
           :: rest), k')
    /\ map RK.view rest
       = flat_map (rk_turn_views text pattern d q) (range (n - m + 1))
    /\ Forall (rk_details_ok h) rest.
Proof using Hq Hm Hmn.
  unfold rabin_karp_instrumented, bind at 1 2 3 4, lift, perf_counter_ns.
  fold n m. rewrite pow_ok by lia. fold h.
  unfold m at 1. rewrite init_hashes_ok by (fold n m; lia). fold m p_hash.
  set (init := RK.mk _ _ _ _ _ _ _ _ _).
  destruct (for_each_inv (rk_body clock getsizeof text pattern d q n m h p_hash)
              (rk_inv text pattern d q init) (range (n - m + 1))
              (fun pre x post s k => rk_body_inv init pre post x s k)
              (range (n - m + 1)) []
              ([], [init], hash_of d q (window text 0 m)) (S (S k)) eq_refl)
    as ([[matches iterations] t] & k' & Hrun & Hms & (rest & Hit & Hv & Hd) & _).
  - split; [reflexivity|]. split; [| intros _; reflexivity].
    exists []. repeat split. constructor.
  - unfold bind. rewrite Hrun. unfold ret. subst matches iterations.
    exists rest, k'. repeat split; assumption.
Qed.

End RabinKarpRun.

(** ** Two runs of one matcher *)






(** ** Positions in a trace *)

Lemma range_at (N i : Z) :
  0 <= i < N -> exists post, range N = range i ++ i :: post.
Proof.
  intros Hi. apply in_range in Hi. apply in_split in Hi.
  destruct Hi as (l1 & l2 & H). exists l2.
  destruct (range_split _ _ _ _ H) as (-> & _). exact H.
Qed.

Lemma nth_error_range (N i : Z) :
  0 <= i < N -> nth_error (range N) (Z.to_nat i) = Some i.
Proof.
  intros Hi. destruct (range_at N i Hi) as (post & ->).
  rewrite nth_error_app2; rewrite <- (Nat2Z.id (length (range i)));
    fold (len (range i)); rewrite length_range by lia; [| lia].
  now rewrite Nat.sub_diag.
Qed.

Lemma nth_error_mapped {A B : Type} (f : A -> B) (l : list A) (j : nat) (v : B) :
  nth_error (map f l) j = Some v ->
  exists s, nth_error l j = Some s /\ f s = v.
Proof.
  rewrite nth_error_map. destruct (nth_error l j) as [s |]; [| discriminate].
  intros [= <-]. eauto.
Qed.

Section TurnViews.

Variables (text pattern : str) (d q : Z).

Let n := len text.
Let m := len pattern.
Let turns := flat_map (rk_turn_views text pattern d q).

Lemma turns_length (l : list Z) :
  Forall (fun j => j < n - m) l ->
  length (turns l) = (2 * length l)%nat.
Proof.
  induction 1 as [| j l Hj _ IH]; [reflexivity|].
  unfold turns in *. cbn [flat_map length]. rewrite length_app, IH.
  unfold rk_turn_views. fold n m.
  replace (j <? n - m) with true by lia. cbn [length]. lia.
Qed.

Lemma turns_length_range (i : Z) :
  0 <= i <= n - m -> length (turns (range i)) = Z.to_nat (2 * i).
Proof.
  intros Hi. rewrite turns_length.
  - pose proof (length_range i ltac:(lia)) as H. unfold len in H. lia.
  - apply Forall_forall. intros j Hj. apply in_range in Hj. lia.
Qed.



Lemma turns_total_length :
  0 <= n - m ->
  Z.of_nat (length (turns (range (n - m + 1)))) = (n - m + 1) + (n - m).
Proof.
  intros Hnm. rewrite range_succ by lia.
  unfold turns. rewrite flat_map_app, length_app. fold (turns (range (n - m))).
  rewrite turns_length_range by lia.
  cbn [flat_map]. unfold rk_turn_views. fold n m.
  rewrite Z.ltb_irrefl. cbn [app length]. lia.
Qed.


End TurnViews.

(** ** Primality by trial *)



(** ** Occurrences and comparison counts *)

Lemma in_occurrences (text pattern : str) (p : Z) :
  In p (occurrences text pattern)
  <-> 0 <= p <= len text - len pattern /\ occurs_at text pattern p.
Proof.
  unfold occurrences. rewrite filter_In, in_range, occurs_atb_spec.
  split; intros [H1 H2]; (split; [lia | exact H2]).
Qed.

Lemma occurrences_sorted (text pattern : str) :
  StronglySorted Z.lt (occurrences text pattern).
Proof. apply filter_sorted, range_sorted. Qed.

(** What the short-circuit comparison at offset [i] counts. *)
Lemma examined_window (text pattern : str) (i : Z) :
  0 <= i -> i + len pattern <= len text ->
  (occurs_at text pattern i ->
   examined (window text i (len pattern)) pattern = len pattern)
  /\ (forall k, first_mismatch text pattern i k ->
        examined (window text i (len pattern)) pattern = k + 1
        /\ ~ occurs_at text pattern i).
Proof.
  intros Hi Hfit.
  assert (Hm : 0 <= len pattern) by (unfold len; lia).
  split.
  - unfold occurs_at. intros ->. apply examined_self.
  - intros k (Hk & Hpre & Hneq). split.
    + apply examined_first_mismatch.
      * now apply length_window.
      * exact Hk.
      * intros j Hj. rewrite char_at_window by lia. apply Hpre, Hj.
      * rewrite char_at_window by lia. exact Hneq.
    + intros Hocc.
      pose proof (proj1 (occurs_at_chars text pattern i Hi Hfit) Hocc) as Hall.
      apply Hneq, Hall, Hk.
Qed.

(** * The validator *)

Lemma len_nil_iff (s : str) : s = [] <-> len s = 0.
Proof.
  destruct s as [| x s]; unfold len; cbn [length]; split; intros H;
    try reflexivity; try discriminate; lia.
Qed.

(** The validator either accepts a valid request or refuses one of the
    four kinds of input it names. *)
Lemma validate_inputs_cases (text pattern : str) :
  (valid_request text pattern /\ validate_inputs text pattern = Ok (text, pattern))
  \/ ((text = [] \/ pattern = [] \/ len pattern > len text \/ len text > 20000)
      /\ exists msg, validate_inputs text pattern = Raise (ValueError msg)).
Proof.
  unfold validate_inputs, valid_request, MAX_TEXT_LEN. rewrite !len_nil_iff.
  assert (Ht : 0 <= len text) by (unfold len; lia).
  assert (Hp : 0 <= len pattern) by (unfold len; lia).
  destruct (len text =? 0) eqn:E1; cbn [orb];
    [right; split; [lia | eauto] |].
  destruct (len pattern =? 0) eqn:E2;
    [right; split; [lia | eauto] |].
  destruct (len pattern >? len text) eqn:E3;
    [right; split; [lia | eauto] |].
  destruct (len text >? 20000) eqn:E4;
    [right; split; [lia | eauto] |].
  left. split; [lia | reflexivity].
Qed.

Lemma valid_not_refused (text pattern : str) :
  valid_request text pattern ->
  ~ (text = [] \/ pattern = [] \/ len pattern > len text \/ len text > 20000).
Proof.
  unfold valid_request, MAX_TEXT_LEN. rewrite !len_nil_iff. lia.
Qed.

Example naive_demo :
  naive_string_matching_instrumented demo_clock demo_getsizeof
    (str_of_string "ABC") (str_of_string "XYZ") 0%nat
  = Ok (([], [Naive.mk 0 false 1 1000 104 [CharNeq 0 65 0 88 true]]), 2%nat).
Proof. vm_compute. reflexivity. Qed.

(** The window at offset 6 has the hash of the pattern without being the
    pattern: its check compares one character and rejects. *)
Example rabin_karp_demo :
  rk_observation
    (rabin_karp_default demo_clock demo_getsizeof
       (str_of_string "ABABDABACDABABCABAB") (str_of_string "ABABCABAB") 0%nat)
  = Ok ([10], [0; 0; 0; 0; 0; 0; 0; 0; 0; 0; 0; 0; 0; 1; 0; 0; 0; 0; 0; 0; 0; 9]).
Proof. vm_compute. reflexivity. Qed.

(** C3.  [validate_inputs] raises [ValueError] exactly when the text is
    empty, the pattern is empty, the pattern is longer than the text, or
    the text is longer than 20000 characters, and raises nothing else;
    otherwise it returns the pair it was given, unchanged.  A text of
    20000 characters is accepted, one of 20001 is refused.  The function
    is pure: its result depends on its two arguments only and it reads no
    clock.  Acceptance is the invariant [valid_request]. *)
Theorem validate_inputs_spec :
  (forall text pattern,
      (exists msg, validate_inputs text pattern = Raise (ValueError msg))
      <-> (text = [] \/ pattern = [] \/ len pattern > len text \/ len text > 20000))
  /\ (forall text pattern,
        ~ (text = [] \/ pattern = [] \/ len pattern > len text \/ len text > 20000) ->
        validate_inputs text pattern = Ok (text, pattern))
  /\ (forall text pattern e,
        validate_inputs text pattern = Raise e -> exists msg, e = ValueError msg)
  /\ (forall text pattern r,
        validate_inputs text pattern = Ok r -> r = (text, pattern))
  /\ (forall text pattern,
        len text = 20000 -> 1 <= len pattern <= 20000 ->
        validate_inputs text pattern = Ok (text, pattern))
  /\ (forall text pattern,
        len text = 20001 ->
        exists msg, validate_inputs text pattern = Raise (ValueError msg))
  /\ (forall text pattern,
        validate_inputs text pattern = Ok (text, pattern) <-> valid_request text pattern).
Proof.
  repeat apply conj; intros text pattern.
  - destruct (validate_inputs_cases text pattern) as [[Hv Hok] | [Hbad Hraise]].
    + rewrite Hok. split; [intros (msg & [=]) | intros Hbad].
      now apply valid_not_refused in Hv.
    + tauto.
  - intros Hgood.
    destruct (validate_inputs_cases text pattern) as [[_ Hok] | [Hbad _]]; tauto.
  - intros e He.
    destruct (validate_inputs_cases text pattern) as [[_ Hok] | [_ (msg & Hraise)]];
      [congruence|].
    exists msg. congruence.
  - intros r Hr.
    destruct (validate_inputs_cases text pattern) as [[_ Hok] | [_ (msg & Hraise)]];
      congruence.
  - intros Hn Hm.
    destruct (validate_inputs_cases text pattern) as [[_ Hok] | [Hbad _]];
      [exact Hok|].
    exfalso. apply (valid_not_refused text pattern); [| exact Hbad].
    unfold valid_request, MAX_TEXT_LEN. lia.
  - intros Hn.
    destruct (validate_inputs_cases text pattern) as [[Hv _] | [_ Hraise]];
      [| exact Hraise].
    unfold valid_request, MAX_TEXT_LEN in Hv. lia.
  - destruct (validate_inputs_cases text pattern) as [[Hv Hok] | [Hbad (msg & Hraise)]].
    + tauto.
    + split; [congruence|].
      intros Hv. now apply valid_not_refused in Hv.
Qed.

Lemma validate_inputs_spec_witness :
  (len (repeat 65 (Z.to_nat 20000)) = 20000 /\ 1 <= len [88; 89] <= 20000)
  /\ validate_inputs (repeat 65 (Z.to_nat 20000)) [88; 89] = Ok (repeat 65 (Z.to_nat 20000), [88; 89]).
Proof.
  assert (Hn : len (repeat 65 (Z.to_nat 20000)) = 20000)
    by (unfold len; rewrite repeat_length; lia).
  assert (Hm : 1 <= len [88; 89] <= 20000) by (cbn; lia).
  split; [split; assumption|].
  exact (proj1 (proj2 (proj2 (proj2 (proj2 validate_inputs_spec))))
           (repeat 65 (Z.to_nat 20000)) [88; 89] Hn Hm).
Defined.

(** * The naive matcher *)

Lemma naive_index_range (text pattern : str) (its : list Naive.step) (N : Z) :
  map Naive.view its = map (naive_view text pattern) (range N) ->
  map Naive.index its = range N.
Proof.
  intros Hv.
  change (map Naive.index its) with (map (fun s => fst (fst (Naive.view s))) its).
  rewrite <- (map_map Naive.view (fun v => fst (fst v))), Hv, map_map.
  cbn [naive_view fst]. apply map_id.
Qed.

(** The step of the trace at position [i] is the one of offset [i]. *)
Lemma naive_step_at (text pattern : str) (its : list Naive.step) (N i : Z) :
  map Naive.view its = map (naive_view text pattern) (range N) ->
  0 <= i < N ->
  exists s, nth_error its (Z.to_nat i) = Some s
            /\ Naive.view s = naive_view text pattern i.
Proof.
  intros Hv Hi. apply nth_error_mapped. rewrite Hv.
  apply map_nth_error, nth_error_range, Hi.
Qed.

(** C2.  On a valid request the naive matcher returns; its trace has one
    step per offset [0, 1, ..., n - m], in this order, hence [n - m + 1]
    steps; it reports exactly the offsets [p] in that interval at which
    [text[p : p+m]] is the pattern, in strictly increasing order. *)
Theorem naive_offsets_and_matches (clock : nat -> Z) (getsizeof : str -> Z)
    (text pattern : str) (k : nat) :
  valid_request text pattern ->
  exists matches iterations k',
    naive_string_matching_instrumented clock getsizeof text pattern k
    = Ok ((matches, iterations), k')
    /\ map Naive.index iterations = range (len text - len pattern + 1)
    /\ Z.of_nat (length iterations) = len text - len pattern + 1
    /\ (forall p, In p matches
                  <-> 0 <= p <= len text - len pattern /\ occurs_at text pattern p)
    /\ StronglySorted Z.lt matches
    /\ Forall (fun p => 0 <= p <= len text - len pattern) matches.
Proof.
  intros (Hm & Hmn & _).
  destruct (naive_run clock getsizeof text pattern k) as (its & k' & Hrun & Hv & _).
  exists (occurrences text pattern), its, k'.
  pose proof (naive_index_range _ _ _ _ Hv) as Hidx.
  repeat apply conj.
  - exact Hrun.
  - exact Hidx.
  - rewrite <- (length_map Naive.index), Hidx.
    apply (length_range (len text - len pattern + 1)). lia.
  - apply in_occurrences.
  - apply occurrences_sorted.
  - apply Forall_forall. intros p Hp. now apply in_occurrences in Hp.
Qed.

Lemma naive_offsets_and_matches_witness :
  valid_request (str_of_string "AAAA") (str_of_string "AA")
  /\ exists matches iterations k',
      naive_string_matching_instrumented demo_clock demo_getsizeof
        (str_of_string "AAAA") (str_of_string "AA") 0%nat
      = Ok ((matches, iterations), k')
      /\ map Naive.index iterations = range (4 - 2 + 1)
      /\ Z.of_nat (length iterations) = 4 - 2 + 1
      /\ (forall p, In p matches
                    <-> 0 <= p <= 4 - 2
                        /\ occurs_at (str_of_string "AAAA") (str_of_string "AA") p)
      /\ StronglySorted Z.lt matches
      /\ Forall (fun p => 0 <= p <= 4 - 2) matches.
Proof.
  assert (H : valid_request (str_of_string "AAAA") (str_of_string "AA"))
    by (unfold valid_request, MAX_TEXT_LEN; cbn; lia).
  split; [exact H|].
  exact (naive_offsets_and_matches demo_clock demo_getsizeof
           (str_of_string "AAAA") (str_of_string "AA") 0%nat H).
Defined.

(** C7.  On a valid request, the step of offset [i] in the naive trace
    counts the characters looked at before the comparison stops: [m] when
    the window at [i] is the pattern (and the step is a match), [k + 1]
    when [k] is the first index at which they differ (and it is not);
    there is one detail line per character looked at.  For ["ABC"] and
    ["XYZ"] the trace is a single step with one comparison, and no offset
    is reported. *)
Theorem naive_comparison_counts :
  (forall (clock : nat -> Z) (getsizeof : str -> Z) (text pattern : str) (k : nat),
      valid_request text pattern ->
      exists matches iterations k',
        naive_string_matching_instrumented clock getsizeof text pattern k
        = Ok ((matches, iterations), k')
        /\ forall i, 0 <= i <= len text - len pattern ->
             exists s,
               nth_error iterations (Z.to_nat i) = Some s
               /\ Naive.index s = i
               /\ (occurs_at text pattern i ->
                   Naive.comparisons s = len pattern /\ Naive.matched s = true)
               /\ (forall j, first_mismatch text pattern i j ->
                   Naive.comparisons s = j + 1 /\ Naive.matched s = false)
               /\ Z.of_nat (length (Naive.details s)) = Naive.comparisons s)
  /\ (forall (clock : nat -> Z) (getsizeof : str -> Z) (k : nat),
        exists s k',
          naive_string_matching_instrumented clock getsizeof
            (str_of_string "ABC") (str_of_string "XYZ") k
          = Ok (([], [s]), k')
          /\ Naive.comparisons s = 1 /\ Naive.matched s = false).
Proof.
  split.
  - intros clock getsizeof text pattern k (Hm & Hmn & _).
    destruct (naive_run clock getsizeof text pattern k) as (its & k' & Hrun & Hv & Hd).
    exists (occurrences text pattern), its, k'. split; [exact Hrun|].
    intros i Hi.
    destruct (naive_step_at _ _ _ _ i Hv ltac:(lia)) as (s & Hs & Hview).
    exists s. split; [exact Hs|].
    unfold Naive.view, naive_view in Hview. injection Hview as Hidx Hmt Hc.
    destruct (examined_window text pattern i ltac:(lia) ltac:(lia)) as [Hfull Hstop].
    repeat apply conj.
    + exact Hidx.
    + intros Hocc. rewrite Hc, Hmt. split; [now apply Hfull|].
      now apply occurs_atb_spec.
    + intros j Hj. destruct (Hstop j Hj) as [Hcnt Hno]. rewrite Hc, Hmt.
      split; [exact Hcnt|].
      destruct (occurs_atb text pattern i) eqn:E; [| reflexivity].
      apply occurs_atb_spec in E. contradiction.
    + rewrite Forall_forall in Hd. apply Hd. eapply nth_error_In, Hs.
  - intros clock getsizeof k. do 2 eexists. split; [reflexivity|]. split; reflexivity.
Qed.

Lemma naive_comparison_counts_witness :
  valid_request (str_of_string "ABC") (str_of_string "XYZ")
  /\ exists matches iterations k',
      naive_string_matching_instrumented demo_clock demo_getsizeof
        (str_of_string "ABC") (str_of_string "XYZ") 0%nat
      = Ok ((matches, iterations), k')
      /\ forall i, 0 <= i <= 3 - 3 ->
           exists s,
             nth_error iterations (Z.to_nat i) = Some s
             /\ Naive.index s = i
             /\ (occurs_at (str_of_string "ABC") (str_of_string "XYZ") i ->
                 Naive.comparisons s = 3 /\ Naive.matched s = true)
             /\ (forall j, first_mismatch (str_of_string "ABC") (str_of_string "XYZ") i j ->
                 Naive.comparisons s = j + 1 /\ Naive.matched s = false)
             /\ Z.of_nat (length (Naive.details s)) = Naive.comparisons s.
Proof.
  assert (H : valid_request (str_of_string "ABC") (str_of_string "XYZ"))
    by (unfold valid_request, MAX_TEXT_LEN; cbn; lia).
  split; [exact H|].
  exact (proj1 naive_comparison_counts demo_clock demo_getsizeof
           (str_of_string "ABC") (str_of_string "XYZ") 0%nat H).
Defined.

(** * The Rabin-Karp matcher *)


Section RabinKarpTrace.

Variables (text pattern : str) (d q : Z).
Variable init : RK.step.
Variable rest : list RK.step.

Let n := len text.
Let m := len pattern.

Hypothesis Hviews :
  map RK.view rest = flat_map (rk_turn_views text pattern d q) (range (n - m + 1)).




Lemma rk_rest_length :
  0 <= n - m -> Z.of_nat (length rest) = (n - m + 1) + (n - m).
Proof using Hviews.
  intros Hnm. rewrite <- (length_map RK.view), Hviews.
  now apply turns_total_length.
Qed.


End RabinKarpTrace.

(** With a zero modulus [pow] raises before anything is traced: the
    properties of the Rabin-Karp trace are stated for [q <> 0]. *)
Lemma rabin_karp_zero_modulus (clock : nat -> Z) (getsizeof : str -> Z)
    (text pattern : str) (d : Z) (k : nat) :
  rabin_karp_instrumented clock getsizeof text pattern d 0 k
  = Raise (ValueError "pow() 3rd argument cannot be 0").
Proof.
  unfold rabin_karp_instrumented, bind at 1, lift.
  now rewrite pow_zero_modulus.
Qed.




(** C1.  On a valid request the naive matcher and the Rabin-Karp matcher
    with the default base 256 and modulus 101 both return, with the same
    reported offsets: the occurrences of the pattern.  The same holds for
    every base and every non-zero modulus.  For ["AAAA"] and ["AA"] both
    report [[0; 1; 2]]. *)
Theorem naive_rabin_karp_same_matches :
  (forall (clock1 clock2 : nat -> Z) (getsizeof1 getsizeof2 : str -> Z)
          (text pattern : str) (k1 k2 : nat),
      valid_request text pattern ->
      exists matches,
        (exists it1 k1',
            naive_string_matching_instrumented clock1 getsizeof1 text pattern k1
            = Ok ((matches, it1), k1'))
        /\ (exists it2 k2',
              rabin_karp_default clock2 getsizeof2 text pattern k2
              = Ok ((matches, it2), k2'))
        /\ (forall d q, q <> 0 ->
              exists it2 k2',
                rabin_karp_instrumented clock2 getsizeof2 text pattern d q k2
                = Ok ((matches, it2), k2'))
        /\ (forall p, In p matches
                      <-> 0 <= p <= len text - len pattern /\ occurs_at text pattern p))
  /\ (forall (clock1 clock2 : nat -> Z) (getsizeof1 getsizeof2 : str -> Z) (k1 k2 : nat),
        (exists it1 k1',
            naive_string_matching_instrumented clock1 getsizeof1
              (str_of_string "AAAA") (str_of_string "AA") k1
            = Ok (([0; 1; 2], it1), k1'))
        /\ (exists it2 k2',
              rabin_karp_default clock2 getsizeof2
                (str_of_string "AAAA") (str_of_string "AA") k2
              = Ok (([0; 1; 2], it2), k2'))).
Proof.
  split.
  - intros clock1 clock2 getsizeof1 getsizeof2 text pattern k1 k2 (Hm & Hmn & _).
    exists (occurrences text pattern). repeat apply conj.
    + destruct (naive_run clock1 getsizeof1 text pattern k1) as (its & k' & Hrun & _).
      eauto.
    + destruct (rk_run clock2 getsizeof2 text pattern 256 101 ltac:(lia) Hm Hmn k2)
        as (rest & k' & Hrun & _).
      unfold rabin_karp_default. eauto.
    + intros d q Hq.
      destruct (rk_run clock2 getsizeof2 text pattern d q Hq Hm Hmn k2)
        as (rest & k' & Hrun & _).
      eauto.
    + apply in_occurrences.
  - intros clock1 clock2 getsizeof1 getsizeof2 k1 k2.
    change [0; 1; 2] with (occurrences (str_of_string "AAAA") (str_of_string "AA")).
    split.
    + destruct (naive_run clock1 getsizeof1 (str_of_string "AAAA")
                  (str_of_string "AA") k1) as (its & k' & Hrun & _).
      eauto.
    + destruct (rk_run clock2 getsizeof2 (str_of_string "AAAA") (str_of_string "AA")
                  256 101 ltac:(lia) ltac:(cbn; lia) ltac:(cbn; lia) k2)
        as (rest & k' & Hrun & _).
      unfold rabin_karp_default. eauto.
Qed.

Lemma naive_rabin_karp_same_matches_witness :
  valid_request (str_of_string "ABABDABACDABABCABAB") (str_of_string "ABABCABAB")
  /\ exists matches,
      (exists it1 k1',
          naive_string_matching_instrumented demo_clock demo_getsizeof
            (str_of_string "ABABDABACDABABCABAB") (str_of_string "ABABCABAB") 0%nat
          = Ok ((matches, it1), k1'))
      /\ (exists it2 k2',
            rabin_karp_default demo_clock demo_getsizeof
              (str_of_string "ABABDABACDABABCABAB") (str_of_string "ABABCABAB") 0%nat
            = Ok ((matches, it2), k2')).
Proof.
  assert (H : valid_request (str_of_string "ABABDABACDABABCABAB")
                (str_of_string "ABABCABAB"))
    by (unfold valid_request, MAX_TEXT_LEN; cbn; lia).
  split; [exact H|].
  destruct (proj1 naive_rabin_karp_same_matches demo_clock demo_clock
              demo_getsizeof demo_getsizeof
              (str_of_string "ABABDABACDABABCABAB") (str_of_string "ABABCABAB")
              0%nat 0%nat H) as (matches & Hn & Hr & _).
  exists matches. split; assumption.
Defined.












(** * Two runs *)



(** * Beyond valid requests, and the rest of the trace *)

(** ** Indexing out of range *)

Lemma getitem_out_of_range (s : str) (i : Z) :
  len s <= i -> getitem s i = Raise IndexError.
Proof.
  intros Hi. unfold getitem.
  assert (0 <= len s) by (unfold len; lia).
  destruct (i <? 0) eqn:E; [lia|].
  replace (i <? len s) with false by lia.
  now rewrite andb_false_r.
Qed.

Lemma range_nonpositive (k : Z) : k <= 0 -> range k = [].
Proof. intros Hk. unfold range. now replace (Z.to_nat k) with 0%nat by lia. Qed.

(** ** Loops, with the clock *)

Lemma for_each_inv_ticks {St : Type} (body : Z -> St -> M St)
    (Inv : list Z -> St -> nat -> Prop) (all : list Z) :
  (forall pre x post s k,
      all = pre ++ x :: post -> Inv pre s k ->
      exists s' k', body x s k = Ok (s', k') /\ Inv (pre ++ [x]) s' k') ->
  forall xs done s k,
    all = done ++ xs -> Inv done s k ->
    exists s' k', for_each xs body s k = Ok (s', k') /\ Inv all s' k'.
Proof.
  intros Hbody xs. induction xs as [| x xs IH]; intros done s k Hall HI.
  - rewrite app_nil_r in Hall. subst done. cbn. unfold ret. eauto.
  - destruct (Hbody done x xs s k Hall HI) as (s1 & k1 & Hb & HI1).
    cbn [for_each]. unfold bind. rewrite Hb.
    apply (IH (done ++ [x])); [| exact HI1].
    now rewrite <- app_assoc.
Qed.

(** ** The detail lines of a comparison *)

Lemma scan_details_length (stop : bool) (i j : Z) (w p : str) :
  Z.of_nat (length (scan_details stop i j w p)) = examined w p.
Proof.
  revert j p. induction w as [| x w IH]; intros j [| y p]; try reflexivity.
  cbn [scan_details examined]. destruct (x =? y); [| reflexivity].
  cbn [length]. rewrite Nat2Z.inj_succ, IH. lia.
Qed.

Lemma scan_details_nth (stop : bool) (i : Z) (w p : str) (j0 j : Z) :
  0 <= j < examined w p ->
  nth_error (scan_details stop i j0 w p) (Z.to_nat j)
  = Some (if nth (Z.to_nat j) w 0 =? nth (Z.to_nat j) p 0
          then CharEq (i + (j0 + j)) (nth (Z.to_nat j) w 0)
                 (j0 + j) (nth (Z.to_nat j) p 0)
          else CharNeq (i + (j0 + j)) (nth (Z.to_nat j) w 0)
                 (j0 + j) (nth (Z.to_nat j) p 0) stop).
Proof.
  revert p j0 j. induction w as [| x w IH]; intros [| y p] j0 j Hj;
    cbn [examined] in Hj; try lia.
  cbn [scan_details]. destruct (x =? y) eqn:E.
  - destruct (Z.eq_dec j 0) as [-> | Hj0].
    + cbn. rewrite E, Z.add_0_r. reflexivity.
    + replace (Z.to_nat j) with (S (Z.to_nat (j - 1))) by lia.
      cbn [nth_error nth]. rewrite (IH p (j0 + 1) (j - 1)) by lia.
      replace (j0 + 1 + (j - 1)) with (j0 + j) by lia. reflexivity.
  - assert (j = 0) by lia. subst j. cbn. rewrite E, Z.add_0_r. reflexivity.
Qed.

Section CompareLines.

Variables (text pattern : str) (i : Z) (stop : bool).
Hypothesis Hi : 0 <= i.
Hypothesis Hfit : i + len pattern <= len text.

Let w := window text i (len pattern).

Lemma compare_chars_lines_from (r a : nat) (c : Z) (ds : list detail) :
  (a + r = length pattern)%nat ->
  compare_chars text pattern i stop (map Z.of_nat (seq a r)) c ds
  = Ok (c + examined (skipn a w) (skipn a pattern),
        str_eqb (skipn a w) (skipn a pattern),
        ds ++ scan_details stop i (Z.of_nat a) (skipn a w) (skipn a pattern)).
Proof using Hi Hfit.
  assert (Hm : 0 <= len pattern) by (unfold len; lia).
  pose proof (length_window text i (len pattern) Hi Hm Hfit) as Hlw.
  fold w in Hlw. unfold len in Hlw.
  revert a c ds. induction r as [| r IH]; intros a c ds Har.
  - cbn [seq map compare_chars].
    rewrite !skipn_all2 by lia. cbn [examined scan_details].
    now rewrite Z.add_0_r, app_nil_r.
  - cbn [seq map compare_chars].
    assert (Ha : 0 <= Z.of_nat a < len pattern) by (unfold len; lia).
    rewrite getitem_ok by (unfold len in *; lia).
    rewrite (getitem_ok pattern) by exact Ha.
    cbn [rbind].
    rewrite (skipn_cons_nth w a), (skipn_cons_nth pattern a) by lia.
    assert (Hw : nth a w 0 = char_at text (i + Z.of_nat a)).
    { rewrite <- (char_at_window text i (len pattern) Hi _ Ha).
      unfold char_at. now rewrite Nat2Z.id. }
    assert (Hp : nth a pattern 0 = char_at pattern (Z.of_nat a))
      by (unfold char_at; now rewrite Nat2Z.id).
    rewrite Hw, Hp.
    generalize (char_at text (i + Z.of_nat a)) as tc.
    generalize (char_at pattern (Z.of_nat a)) as pc. intros pc tc.
    cbn [examined scan_details]. rewrite str_eqb_cons.
    destruct (tc =? pc) eqn:E; cbn [negb]; [| reflexivity].
    rewrite (IH (S a)) by lia. rewrite <- app_assoc. cbn [app].
    rewrite Nat2Z.inj_succ, <- Z.add_1_r.
    do 3 f_equal. lia.
Qed.

(** The comparison loop, with the lines it writes. *)
Lemma compare_chars_exact :
  compare_chars text pattern i stop (range (len pattern)) 0 []
  = Ok (examined w pattern, str_eqb w pattern, detail_lines stop text pattern i).
Proof using Hi Hfit.
  unfold len at 1. rewrite range_nat.
  now rewrite (compare_chars_lines_from (length pattern) 0 0 [] eq_refl).
Qed.

(** Line [j] of the comparison at offset [i] compares [text[i+j]] with
    [pattern[j]]. *)
Lemma detail_lines_nth (j : Z) :
  0 <= j < examined w pattern ->
  nth_error (detail_lines stop text pattern i) (Z.to_nat j)
  = Some (char_line stop text pattern i j).
Proof using Hi Hfit.
  intros Hj. pose proof (examined_bounds w pattern) as Hb.
  unfold detail_lines. fold w. rewrite scan_details_nth by exact Hj.
  unfold char_line.
  rewrite <- (char_at_window text i (len pattern) Hi j) by lia. fold w.
  unfold char_at. now rewrite Z.add_0_l.
Qed.

End CompareLines.

(** ** Timings, size estimates and lines of the naive trace *)

Section NaiveFrame.

Variable clock : nat -> Z.
Variable getsizeof : str -> Z.
Variables text pattern : str.

Let n := len text.
Let m := len pattern.

Lemma naive_body_frame (k0 : nat) (pre post : list Z) (x : Z) st (k : nat) :
  range (n - m + 1) = pre ++ x :: post ->
  k = (k0 + 2 * length pre)%nat
  /\ Forall (naive_step_frame clock getsizeof text pattern k0) (snd st) ->
  exists st' k',
    naive_body clock getsizeof text pattern m x st k = Ok (st', k')
    /\ k' = (k0 + 2 * length (pre ++ [x]))%nat
    /\ Forall (naive_step_frame clock getsizeof text pattern k0) (snd st').
Proof.
  intros Hsplit [Hk Hall]. destruct st as [matches iterations].
  apply range_split in Hsplit. destruct Hsplit as (_ & Hx & Hr).
  unfold naive_body, bind, perf_counter_ns, lift. unfold m.
  rewrite compare_chars_exact by (fold n m; lia).
  unfold ret. do 2 eexists. split; [reflexivity|]. cbn [snd] in *.
  split; [rewrite length_app; cbn [length]; lia|].
  apply Forall_app. split; [exact Hall|].
  constructor; [| constructor].
  unfold naive_step_frame.
  cbn [Naive.index Naive.iteration_time_ns Naive.memory_bytes Naive.details].
  replace (Z.to_nat x) with (length pre) by (unfold len in Hx; lia).
  rewrite <- Hk. repeat split.
Qed.

(** The run reads the clock twice per offset, and every step is framed
    by its own two readings. *)
Lemma naive_frame_run (k : nat) :
  exists matches iterations k',
    naive_string_matching_instrumented clock getsizeof text pattern k
    = Ok ((matches, iterations), k')
    /\ k' = (k + 2 * Z.to_nat (n - m + 1))%nat
    /\ Forall (naive_step_frame clock getsizeof text pattern k) iterations.
Proof.
  unfold naive_string_matching_instrumented. fold n m.
  destruct (for_each_inv_ticks (naive_body clock getsizeof text pattern m)
              (fun pre st j =>
                 j = (k + 2 * length pre)%nat
                 /\ Forall (naive_step_frame clock getsizeof text pattern k) (snd st))
              (range (n - m + 1))
              (fun pre x post s j => naive_body_frame k pre post x s j)
              (range (n - m + 1)) [] ([], []) k eq_refl)
    as ([matches iterations] & k' & Hrun & Hk & Hall).
  - split; [cbn; lia | constructor].
  - exists matches, iterations, k'. split; [exact Hrun|]. split; [| exact Hall].
    rewrite Hk. unfold range. now rewrite length_map, length_seq.
Qed.

End NaiveFrame.

(** ** Timings, size estimates and lines of the Rabin-Karp trace *)

Section RabinKarpFrame.

Variable clock : nat -> Z.
Variable getsizeof : str -> Z.
Variables (text pattern : str) (d q : Z).

Let n := len text.
Let m := len pattern.

Hypothesis Hq : q <> 0.
Hypothesis Hm : 1 <= m.
Hypothesis Hmn : m <= n.

(** The number of readings made when the offsets [pre] are done. *)
Let ticks (k0 : nat) (pre : list Z) (k : nat) : Prop :=
  Z.of_nat k
  = Z.of_nat k0 + 2 + 4 * len pre - (if n - m <? len pre then 2 else 0).

Lemma rk_body_frame (k0 : nat) (h p_hash : Z) (init : RK.step)
    (pre post : list Z) (x : Z) st (k : nat) :
  range (n - m + 1) = pre ++ x :: post ->
  ticks k0 pre k
  /\ (exists rest, snd (fst st) = init :: rest
                   /\ Forall (rk_step_frame clock getsizeof text pattern k0) rest) ->
  exists st' k',
    rk_body clock getsizeof text pattern d q n m h p_hash x st k = Ok (st', k')
    /\ ticks k0 (pre ++ [x]) k'
    /\ (exists rest, snd (fst st') = init :: rest
                     /\ Forall (rk_step_frame clock getsizeof text pattern k0) rest).
Proof using Hq Hm Hmn.
  intros Hsplit [Hk (rest & Hit & Hall)]. destruct st as [[matches iterations] t_hash].
  cbn [fst snd] in Hit. subst iterations.
  apply range_split in Hsplit. destruct Hsplit as (_ & Hx & Hr).
  assert (Hsnoc : len (pre ++ [x]) = x + 1).
  { unfold len in *. rewrite length_app. cbn [length]. lia. }
  unfold ticks in *. rewrite Hsnoc. rewrite <- Hx in Hk.
  replace (n - m <? x) with false in Hk by lia.
  assert (Hr0 : (k0 + 2 + 4 * Z.to_nat x)%nat = k) by lia.
  unfold rk_body, bind, perf_counter_ns, lift.
  assert (Hcheck :
    exists matches' c b,
      (if p_hash =? t_hash
       then rbind (compare_chars text pattern x false (range m) 0 [])
              (fun '(comparisons, match_, step_details) =>
                 Ok (if match_ then matches ++ [x] else matches,
                     comparisons, match_, step_details))
       else Ok (matches, 0, false, [HashMismatch p_hash t_hash]))
      = Ok (matches', c, b,
            if p_hash =? t_hash then detail_lines false text pattern x
            else [HashMismatch p_hash t_hash])).
  { destruct (p_hash =? t_hash); [| eauto].
    unfold m. rewrite compare_chars_exact by (fold n m; lia).
    cbn [rbind]. eauto. }
  destruct Hcheck as (matches' & c & b & ->).
  set (chk := RK.mk (RK.Int x) RK.check p_hash t_hash b c (clock (S k) - clock k)
                (getsizeof text + getsizeof pattern)
                (if p_hash =? t_hash then detail_lines false text pattern x
                 else [HashMismatch p_hash t_hash])).
  assert (Hchk : rk_step_frame clock getsizeof text pattern k0 chk).
  { unfold rk_step_frame, chk.
    cbn [RK.index RK.iteration_time_ns RK.memory_bytes RK.details RK.p_hash RK.t_hash].
    rewrite Hr0. repeat split. }
  destruct (x <? n - m) eqn:Elt.
  - rewrite !getitem_ok by (fold n; lia).
    rewrite py_mod_ok by exact Hq. unfold ret.
    do 2 eexists. split; [reflexivity|]. cbn [fst snd]. split.
    + replace (n - m <? x + 1) with false by lia. lia.
    + eexists. split; [rewrite <- app_assoc; reflexivity|].
      apply Forall_app. split; [exact Hall|].
      constructor; [exact Hchk|]. constructor; [| constructor].
      unfold rk_step_frame.
      cbn [RK.index RK.iteration_time_ns RK.memory_bytes RK.details RK.p_hash RK.t_hash].
      replace (k0 + 4 + 4 * Z.to_nat x)%nat with (S (S k)) by lia.
      repeat split.
  - unfold ret. do 2 eexists. split; [reflexivity|]. cbn [fst snd]. split.
    + replace (n - m <? x + 1) with true by lia. lia.
    + exists (rest ++ [chk]). split; [reflexivity|].
      apply Forall_app. split; [exact Hall|]. constructor; [exact Hchk | constructor].
Qed.

(** The run reads the clock twice for the initial step, twice per check
    and twice per roll; the initial step is framed by the first two
    readings and every later step by its own two. *)
Lemma rk_frame_run (k : nat) :
  exists matches init rest k',
    rabin_karp_instrumented clock getsizeof text pattern d q k
    = Ok ((matches, init :: rest), k')
    /\ Z.of_nat k' = Z.of_nat k + 4 * (n - m) + 4
    /\ RK.iteration_time_ns init = clock (S k) - clock k
    /\ RK.memory_bytes init = getsizeof text + getsizeof pattern
    /\ Forall (rk_step_frame clock getsizeof text pattern k) rest.
Proof using Hq Hm Hmn.
  unfold rabin_karp_instrumented, bind at 1 2 3 4, lift, perf_counter_ns.
  fold n m. rewrite pow_ok by lia.
  unfold m at 2. rewrite init_hashes_ok by (fold n m; lia). fold m.
  set (init := RK.mk _ _ _ _ _ _ _ _ _).
  set (h := d ^ (m - 1) mod q). set (p_hash := hash_of d q pattern).
  destruct (for_each_inv_ticks
              (rk_body clock getsizeof text pattern d q n m h p_hash)
              (fun pre st j =>
                 ticks k pre j
                 /\ (exists rest, snd (fst st) = init :: rest
                       /\ Forall (rk_step_frame clock getsizeof text pattern k) rest))
              (range (n - m + 1))
              (fun pre x post s j => rk_body_frame k h p_hash init pre post x s j)
              (range (n - m + 1)) []
              ([], [init], hash_of d q (window text 0 m)) (S (S k)) eq_refl)
    as ([[matches iterations] t] & k' & Hrun & Hk & (rest & Hit & Hall)).
  - split.
    + unfold ticks. change (len []) with 0.
      replace (n - m <? 0) with false by lia. lia.
    + exists []. split; [reflexivity | constructor].
  - cbn [fst snd] in Hit. subst iterations.
    unfold bind. rewrite Hrun. unfold ret.
    exists matches, init, rest, k'. split; [reflexivity|].
    split; [| split; [reflexivity | split; [reflexivity | exact Hall]]].
    unfold ticks in Hk. rewrite length_range in Hk by lia.
    replace (n - m <? n - m + 1) with true in Hk by lia. lia.
Qed.

End RabinKarpFrame.

(** ** Views and frames of one run *)

Lemma naive_full_run (clock : nat -> Z) (getsizeof : str -> Z)
    (text pattern : str) (k : nat) :
  exists iterations k',
    naive_string_matching_instrumented clock getsizeof text pattern k
    = Ok ((occurrences text pattern, iterations), k')
    /\ map Naive.view iterations
       = map (naive_view text pattern) (range (len text - len pattern + 1))
    /\ k' = (k + 2 * Z.to_nat (len text - len pattern + 1))%nat
    /\ Forall (naive_step_frame clock getsizeof text pattern k) iterations.
Proof.
  destruct (naive_run clock getsizeof text pattern k) as (its & k' & Hrun & Hv & _).
  destruct (naive_frame_run clock getsizeof text pattern k)
    as (ms & its' & k'' & Hrun' & Hk & Hf).
  rewrite Hrun in Hrun'. injection Hrun' as <- <- <-.
  exists its, k'. repeat split; assumption.
Qed.

Lemma rk_full_run (clock : nat -> Z) (getsizeof : str -> Z)
    (text pattern : str) (d q : Z) (k : nat) :
  valid_request text pattern ->
  q <> 0 ->
  exists init rest k',
    rabin_karp_instrumented clock getsizeof text pattern d q k
    = Ok ((occurrences text pattern, init :: rest), k')
    /\ RK.view init = rk_init_view text pattern d q
    /\ map RK.view rest
       = flat_map (rk_turn_views text pattern d q) (range (len text - len pattern + 1))
    /\ Z.of_nat k' = Z.of_nat k + 4 * (len text - len pattern) + 4
    /\ RK.iteration_time_ns init = clock (S k) - clock k
    /\ RK.memory_bytes init = getsizeof text + getsizeof pattern
    /\ Forall (rk_step_frame clock getsizeof text pattern k) rest.
Proof.
  intros (Hm & Hmn & _) Hq.
  destruct (rk_run clock getsizeof text pattern d q Hq Hm Hmn k)
    as (rest & k' & Hrun & Hv & _).
  destruct (rk_frame_run clock getsizeof text pattern d q Hq Hm Hmn k)
    as (ms & init & rest' & k'' & Hrun' & Hk & Ht & Hmem & Hf).
  rewrite Hrun in Hrun'. injection Hrun' as <- <- <- <-.
  do 3 eexists. split; [exact Hrun|].
  split; [reflexivity|]. repeat split; assumption.
Qed.

Lemma naive_step_offset (text pattern : str) (its : list Naive.step) (N : Z)
    (s : Naive.step) :
  map Naive.view its = map (naive_view text pattern) (range N) ->
  In s its ->
  exists i, 0 <= i < N /\ Naive.view s = naive_view text pattern i.
Proof.
  intros Hv Hs. apply (in_map Naive.view) in Hs. rewrite Hv in Hs.
  apply in_map_iff in Hs. destruct Hs as (i & Hi & Hin).
  apply in_range in Hin. eauto.
Qed.

(** * Inputs the validator would refuse *)

(** X1.  When the pattern is longer than the text the naive matcher
    looks at no offset: it returns no match and an empty trace without
    reading the clock, and raises nothing. *)
Theorem naive_pattern_longer_than_text (clock : nat -> Z) (getsizeof : str -> Z)
    (text pattern : str) (k : nat) :
  len text < len pattern ->
  naive_string_matching_instrumented clock getsizeof text pattern k
  = Ok (([], []), k).
Proof.
  intros Hlt. unfold naive_string_matching_instrumented.
  now rewrite range_nonpositive by lia.
Qed.

Lemma naive_pattern_longer_than_text_witness :
  len (str_of_string "AB") < len (str_of_string "ABC")
  /\ naive_string_matching_instrumented demo_clock demo_getsizeof
       (str_of_string "AB") (str_of_string "ABC") 5%nat
     = Ok (([], []), 5%nat).
Proof.
  assert (H : len (str_of_string "AB") < len (str_of_string "ABC")) by (cbn; lia).
  split; [exact H|].
  exact (naive_pattern_longer_than_text demo_clock demo_getsizeof
           (str_of_string "AB") (str_of_string "ABC") 5%nat H).
Defined.

Lemma filter_all {A : Type} (f : A -> bool) (l : list A) :
  (forall x, f x = true) -> filter f l = l.
Proof.
  intros Hf. induction l as [| x l IH]; [reflexivity|].
  cbn [filter]. now rewrite Hf, IH.
Qed.

(** X2.  With an empty pattern the naive matcher reports every offset
    from [0] to [len(text)] inclusive, each in a step that compares no
    character and is a match; it raises nothing, even on an empty text. *)
Theorem naive_empty_pattern (clock : nat -> Z) (getsizeof : str -> Z)
    (text : str) (k : nat) :
  exists iterations k',
    naive_string_matching_instrumented clock getsizeof text [] k
    = Ok ((range (len text + 1), iterations), k')
    /\ map Naive.view iterations
       = map (fun i => (i, true, 0)) (range (len text + 1)).
Proof.
  destruct (naive_run clock getsizeof text [] k) as (its & k' & Hrun & Hv & _).
  assert (Hall : forall i, occurs_atb text [] i = true)
    by (intros i; unfold occurs_atb, window; reflexivity).
  unfold occurrences in Hrun. rewrite filter_all in Hrun by exact Hall.
  change (len []) with 0 in *. rewrite Z.sub_0_r in *.
  exists its, k'. split; [exact Hrun|].
  rewrite Hv. apply map_ext. intros i.
  unfold naive_view. now rewrite Hall.
Qed.

Lemma init_hashes_common_prefix (text pattern : str) (d q : Z) (k : nat) :
  q <> 0 -> Z.of_nat k <= len pattern -> Z.of_nat k <= len text ->
  init_hashes text pattern d q (range (Z.of_nat k)) 0 0
  = Ok (hash_of d q (firstn k pattern), hash_of d q (firstn k text)).
Proof.
  intros Hq. induction k as [| k IH]; intros Hp Ht; [reflexivity|].
  rewrite Nat2Z.inj_succ, <- Z.add_1_r, range_succ by lia.
  rewrite init_hashes_app, IH by lia. cbn [rbind fst snd init_hashes].
  rewrite !getitem_ok by lia. cbn [rbind].
  rewrite !py_mod_ok by exact Hq. cbn [rbind].
  unfold len in *.
  rewrite !firstn_succ_nth, !hash_of_snoc by lia.
  unfold char_at. now rewrite Nat2Z.id.
Qed.

(** X3.  When the pattern is longer than the text the Rabin-Karp
    matcher, for any base and non-zero modulus, raises [IndexError]: the
    loop that hashes the first window reads [text[len(text)]].  It relies
    on the validator where the naive matcher does not. *)
Theorem rabin_karp_pattern_longer_than_text (clock : nat -> Z) (getsizeof : str -> Z)
    (text pattern : str) (d q : Z) (k : nat) :
  len text < len pattern ->
  q <> 0 ->
  rabin_karp_instrumented clock getsizeof text pattern d q k = Raise IndexError.
Proof.
  intros Hlt Hq.
  assert (Hn : 0 <= len text) by (unfold len; lia).
  unfold rabin_karp_instrumented, bind at 1 2 3, lift, perf_counter_ns.
  rewrite pow_ok by lia.
  destruct (range_at (len pattern) (len text) ltac:(lia)) as (post & ->).
  rewrite init_hashes_app.
  change (range (len text)) with (range (Z.of_nat (length text))).
  rewrite init_hashes_common_prefix by (unfold len in *; lia).
  cbn [rbind fst snd init_hashes].
  rewrite getitem_ok by lia. cbn [rbind].
  rewrite py_mod_ok by exact Hq. cbn [rbind].
  rewrite getitem_out_of_range by lia. reflexivity.
Qed.

Lemma rabin_karp_pattern_longer_than_text_witness :
  (len (str_of_string "AB") < len (str_of_string "ABC") /\ 101 <> 0)
  /\ rabin_karp_instrumented demo_clock demo_getsizeof
       (str_of_string "AB") (str_of_string "ABC") 256 101 0%nat
     = Raise IndexError.
Proof.
  assert (H : len (str_of_string "AB") < len (str_of_string "ABC")) by (cbn; lia).
  assert (Hq : 101 <> 0) by lia.
  split; [split; assumption|].
  exact (rabin_karp_pattern_longer_than_text demo_clock demo_getsizeof
           (str_of_string "AB") (str_of_string "ABC") 256 101 0%nat H Hq).
Defined.

(** * Comparison counts of the two matchers *)









(** * The reported offsets and the match flags of the trace *)

Lemma cons_inj {A : Type} (a b : A) (l l' : list A) :
  a :: l = b :: l' -> a = b /\ l = l'.
Proof. intros H. injection H. auto. Qed.

Lemma naive_flags (text pattern : str) (its : list Naive.step) (xs : list Z) :
  map Naive.view its = map (naive_view text pattern) xs ->
  map Naive.index (filter Naive.matched its) = filter (occurs_atb text pattern) xs.
Proof.
  revert xs. induction its as [| s its IH]; intros [| x xs] Hv;
    try discriminate; [reflexivity|].
  cbn [map] in Hv. apply cons_inj in Hv. destruct Hv as [Hs Hv].
  unfold Naive.view, naive_view in Hs. injection Hs as Hix Hmt _.
  cbn [filter]. rewrite Hmt.
  destruct (occurs_atb text pattern x); cbn [map]; rewrite (IH xs Hv); congruence.
Qed.


(** X5.  For every text and pattern, the offsets the naive matcher
    reports are the indices of the steps of its trace flagged as matched,
    in trace order. *)
Theorem naive_matches_are_flagged_steps (clock : nat -> Z) (getsizeof : str -> Z)
    (text pattern : str) (k : nat) :
  exists matches iterations k',
    naive_string_matching_instrumented clock getsizeof text pattern k
    = Ok ((matches, iterations), k')
    /\ matches = map Naive.index (filter Naive.matched iterations).
Proof.
  destruct (naive_run clock getsizeof text pattern k) as (its & k' & Hrun & Hv & _).
  exists (occurrences text pattern), its, k'. split; [exact Hrun|].
  symmetry. now apply naive_flags.
Qed.



(** * Clock readings and step times *)

(** X7.  For every text and pattern, a naive run reads the clock twice
    per offset and nothing more; the step of offset [i] is timed by the
    readings number [2i] and [2i + 1] of the run, so with a clock that
    never goes back no step time is negative. *)
Theorem naive_step_times (clock : nat -> Z) (getsizeof : str -> Z)
    (text pattern : str) (k : nat) :
  (forall j, clock j <= clock (S j)) ->
  exists matches iterations k',
    naive_string_matching_instrumented clock getsizeof text pattern k
    = Ok ((matches, iterations), k')
    /\ k' = (k + 2 * Z.to_nat (len text - len pattern + 1))%nat
    /\ map Naive.index iterations = range (len text - len pattern + 1)
    /\ Forall (fun s =>
                 Naive.iteration_time_ns s
                 = clock (S (k + 2 * Z.to_nat (Naive.index s))%nat)
                   - clock (k + 2 * Z.to_nat (Naive.index s))%nat
                 /\ 0 <= Naive.iteration_time_ns s) iterations.
Proof.
  intros Hmono.
  destruct (naive_full_run clock getsizeof text pattern k)
    as (its & k' & Hrun & Hv & Hk & Hf).
  exists (occurrences text pattern), its, k'.
  split; [exact Hrun|]. split; [exact Hk|].
  split; [now apply (naive_index_range text pattern)|].
  eapply Forall_impl; [| exact Hf].
  intros s (Ht & _). cbv zeta in Ht. split; [exact Ht|].
  rewrite Ht. specialize (Hmono (k + 2 * Z.to_nat (Naive.index s))%nat). lia.
Qed.

Lemma naive_step_times_witness :
  (forall j, demo_clock j <= demo_clock (S j))
  /\ exists matches iterations k',
      naive_string_matching_instrumented demo_clock demo_getsizeof
        (str_of_string "AAAA") (str_of_string "AA") 0%nat
      = Ok ((matches, iterations), k')
      /\ k' = 6%nat
      /\ Forall (fun s => 0 <= Naive.iteration_time_ns s) iterations.
Proof.
  assert (H : forall j, demo_clock j <= demo_clock (S j))
    by (intros j; unfold demo_clock; lia).
  split; [exact H|].
  destruct (naive_step_times demo_clock demo_getsizeof
              (str_of_string "AAAA") (str_of_string "AA") 0%nat H)
    as (ms & its & k' & Hrun & Hk & _ & Hall).
  exists ms, its, k'. split; [exact Hrun|]. split; [exact Hk|].
  eapply Forall_impl; [| exact Hall]. intros s [_ Hs]. exact Hs.
Defined.



(** * Size estimates and detail lines *)



(** X10.  For every text and pattern, a step of the naive trace has one
    detail line per comparison, and line [j] is the one that compares
    [text[i+j]] with [pattern[j]], [i] being the offset of the step: an
    equality line when the two characters are equal, an inequality line
    marked [(stop)] otherwise. *)
Theorem naive_detail_lines (clock : nat -> Z) (getsizeof : str -> Z)
    (text pattern : str) (k : nat) :
  exists matches iterations k',
    naive_string_matching_instrumented clock getsizeof text pattern k
    = Ok ((matches, iterations), k')
    /\ Forall (fun s =>
                 Z.of_nat (length (Naive.details s)) = Naive.comparisons s
                 /\ forall j, 0 <= j < Naive.comparisons s ->
                      nth_error (Naive.details s) (Z.to_nat j)
                      = Some (char_line true text pattern (Naive.index s) j))
         iterations.
Proof.
  destruct (naive_full_run clock getsizeof text pattern k)
    as (its & k' & Hrun & Hv & _ & Hf).
  do 3 eexists. split; [exact Hrun|].
  apply Forall_forall. intros s Hs.
  destruct (naive_step_offset _ _ _ _ s Hv Hs) as (i & Hi & Hview).
  unfold Naive.view, naive_view in Hview. injection Hview as Hix _ Hc.
  rewrite Forall_forall in Hf. destruct (Hf s Hs) as (_ & _ & Hd).
  rewrite Hd, Hc, Hix. split.
  - apply scan_details_length.
  - intros j Hj. apply detail_lines_nth; [lia | lia | exact Hj].
Qed.



(** * The caller *)

Lemma matches_metric_none (matches : list Z) :
  matches_metric matches = None <-> matches = [].
Proof. destruct matches; cbn; split; congruence. Qed.

Lemma occurrences_nil (text pattern : str) :
  occurrences text pattern = []
  <-> forall p, 0 <= p <= len text - len pattern -> ~ occurs_at text pattern p.
Proof.
  split.
  - intros Hnil p Hp Hocc.
    assert (Hin : In p (occurrences text pattern)) by (apply in_occurrences; tauto).
    rewrite Hnil in Hin. exact Hin.
  - intros Hno. destruct (occurrences text pattern) as [| p l] eqn:E; [reflexivity|].
    assert (Hin : In p (occurrences text pattern)) by (rewrite E; now left).
    apply in_occurrences in Hin. destruct Hin as [Hp Hocc]. now apply Hno in Hocc.
Qed.

(** X12.  The three calls of the script, in sequence, have two
    outcomes.  On a valid request they all return: both matchers report
    the same offsets, the occurrences of the pattern, so the two "matches"
    metrics agree and read [None] exactly when the pattern occurs
    nowhere; the naive trace has [n - m + 1] steps, the Rabin-Karp trace
    [2 (n - m) + 2], and the clock was read [2 (n - m + 1) + 4 (n - m) + 4]
    times.  On any other request the validator raises its [ValueError]
    and no matcher is run: a matcher never raises on what the validator
    lets through. *)
Theorem execution_outcome (clock : nat -> Z) (getsizeof : str -> Z)
    (text pattern : str) (k : nat) :
  (valid_request text pattern
   /\ exists naive_iters rk_iters k',
       execution clock getsizeof text pattern k
       = Ok (((occurrences text pattern, naive_iters),
              (occurrences text pattern, rk_iters)), k')
       /\ Z.of_nat (length naive_iters) = len text - len pattern + 1
       /\ Z.of_nat (length rk_iters) = 2 * (len text - len pattern) + 2
       /\ Z.of_nat k'
          = Z.of_nat k + 2 * (len text - len pattern + 1)
            + 4 * (len text - len pattern) + 4
       /\ (matches_metric (occurrences text pattern) = None
           <-> forall p, 0 <= p <= len text - len pattern ->
                         ~ occurs_at text pattern p))
  \/ ((text = [] \/ pattern = [] \/ len pattern > len text \/ len text > 20000)
      /\ exists msg,
          execution clock getsizeof text pattern k = Raise (ValueError msg)).
Proof.
  unfold execution, bind at 1, lift.
  destruct (validate_inputs_cases text pattern)
    as [[Hvalid Hok] | [Hbad (msg & Hraise)]].
  - left. split; [exact Hvalid|]. rewrite Hok.
    pose proof Hvalid as (Hm & Hmn & _).
    destruct (naive_full_run clock getsizeof text pattern k)
      as (nits & k1 & Hn & Hnv & Hk1 & _).
    destruct (rk_full_run clock getsizeof text pattern 256 101 k1 Hvalid ltac:(lia))
      as (init & rest & k2 & Hr & _ & Hrv & Hk2 & _).
    unfold bind at 1. rewrite Hn. unfold bind. rewrite Hr. unfold ret.
    exists nits, (init :: rest), k2. split; [reflexivity|].
    split; [| split; [| split]].
    + rewrite <- (length_map Naive.view), Hnv, length_map.
      apply (length_range (len text - len pattern + 1)). lia.
    + cbn [length]. rewrite Nat2Z.inj_succ.
      rewrite (rk_rest_length text pattern 256 101 rest Hrv) by lia. lia.
    + lia.
    + rewrite matches_metric_none. apply occurrences_nil.
  - right. split; [exact Hbad|]. exists msg. now rewrite Hraise.
Qed.
